(** * RankedSequenceGraph: the note-transition graph of midi-pig-pen

    A shallow embedding of the class [RankedSequenceGraph] (the graph source
    file of the repository): ingestion ([addSequence]), the ranking queries
    ([getAllNotes], [getNotePaths], [getInsertSequence]), sequence retrieval
    ([getSequencesForNote]) and the policy-driven walk ([traverse]); and of
    the [duration] of a [MidiSong] (the song model file).

    Conventions of the embedding.
    - MIDI note numbers are naturals ([N]); offsets, durations, the traversal
      bound and the attribute mask are integers ([Z]).
    - A JavaScript object keyed by note numbers is a [gmap N _].  Keys that
      are array indices (below 2^32 - 1, as every MIDI note number is) are
      enumerated by the engine in ascending numeric order whatever the
      insertion order was: [js_values] is that enumeration.  Larger keys
      would come in insertion order, which a [gmap] does not keep; a
      statement that depends on the order of enumeration carries the bound
      [array_index] as a hypothesis.
    - Numbers are doubles in the source.  Counts and indices stay far below
      2^53, where doubles are the integers; a statement about a computed
      duration carries the bound [exact_times] on the offsets and durations
      it is computed from.
    - Node objects are shared and mutated in place.  They live in one arena,
      the graph's [_map]; a reference to a node ([prev], [NodeReference.node])
      is the key of the node in that arena, and a mutation through a reference
      is an update of the arena at that key.  [reference_node_note] shows
      that the key is what [reference.node.note] reads.
    - Names are those of the source.  Where two interfaces have a field of the
      same name, the fields of [NodeReference] carry the prefix [ref_] and
      those of [RankedNoteElement] the prefix [rank_]. *)

From stdpp Require Import gmap list sorting numbers strings.
From Stdlib Require Import ZArith Lia.

Local Open Scope Z_scope.

(** ** The collaborator shapes: events and sequences *)

Inductive MidiIoEventSubtype :=
  | noteOn
  | noteOff
  | noteAftertouch
  | controller
  | programChange
  | setTempo
  | endOfTrack.

#[global] Instance MidiIoEventSubtype_eq_dec : EqDecision MidiIoEventSubtype.
Proof. solve_decision. Defined.

Record MidiIoEvent := mkEvent {
  offset : Z;
  subtype : MidiIoEventSubtype;
  noteNumber : N
}.

#[global] Instance MidiIoEvent_eq_dec : EqDecision MidiIoEvent.
Proof. solve_decision. Defined.

Record MidiSequence := mkSequence {
  duration : Z;
  events : list MidiIoEvent
}.

#[global] Instance MidiSequence_eq_dec : EqDecision MidiSequence.
Proof. solve_decision. Defined.

(** ** Nodes, references and the graph *)

Record SequenceElement := mkSequenceElement {
  eventIndex : nat;
  sequence : MidiSequence
}.

(** [ref_node] is the referenced node, held by its arena key. *)
Record NodeReference := mkNodeReference {
  ref_count : nat;
  ref_node : N
}.

Record Node := mkNode {
  count : nat;
  note : N;
  pathsIn : gmap N NodeReference;
  pathsOut : gmap N NodeReference;
  sequences : list SequenceElement
}.

Record RankedNoteElement := mkRanked {
  rank_count : nat;
  rank_note : N
}.

#[global] Instance RankedNoteElement_eq_dec : EqDecision RankedNoteElement.
Proof. solve_decision. Defined.

Record RankedSequenceGraph := mkGraph {
  name : string;
  _map : gmap N Node;
  _insertSequence : list N
}.

(** [new RankedSequenceGraph(name)] *)
Definition newGraph (name : string) : RankedSequenceGraph :=
  {| name := name; _map := ∅; _insertSequence := [] |}.

(** ** Enumeration of a note-keyed object, and lodash's [sortBy] *)

Definition key_le {A} (a b : N * A) : Prop := (a.1 ≤ b.1)%N.

#[global] Instance key_le_dec {A} (a b : N * A) : Decision (key_le a b).
Proof. unfold key_le. apply _. Defined.

(** The keys that the engine treats as array indices and enumerates in
    ascending numeric order.  Every MIDI note number is one. *)
Definition array_index (k : N) : Prop := (k < 2 ^ 32 - 1)%N.

(** Own enumerable entries of a note-keyed object whose keys are array
    indices: ascending key order. *)
Definition js_entries {A} (m : gmap N A) : list (N * A) :=
  merge_sort key_le (map_to_list m).

Definition js_values {A} (m : gmap N A) : list A := (js_entries m).*2.

(** [_.sortBy(list, iteratee)]: ascending by the iteratee, stable. *)
Fixpoint sortBy_insert {A} (iteratee : A → Z) (x : A) (l : list A) : list A :=
  match l with
  | [] => [x]
  | y :: l' =>
      if iteratee x <=? iteratee y then x :: y :: l'
      else y :: sortBy_insert iteratee x l'
  end.

Definition sortBy {A} (iteratee : A → Z) (l : list A) : list A :=
  foldr (sortBy_insert iteratee) [] l.

(** [array.indexOf(x)]: first position of [x], or -1. *)
Fixpoint indexOf (x : N) (l : list N) : Z :=
  match l with
  | [] => -1
  | y :: l' =>
      if decide (y = x) then 0
      else let i := indexOf x l' in if i <? 0 then -1 else i + 1
  end.

(** ** Ingestion: [addSequence] *)

(** [map.hasOwnProperty(key) ? map[key] : (map[key] = factory())]: the
    object after the call, and the value returned. *)
Definition _ensureMappedValue {A} (map : gmap N A) (key : N) (factory : unit → A)
  : gmap N A * A :=
  match map !! key with
  | Some v => (map, v)
  | None => let v := factory tt in (<[key := v]> map, v)
  end.

(** In-place mutations of the node stored at a key. *)
Definition incr_count (n : Node) : Node :=
  {| count := S (count n); note := note n; pathsIn := pathsIn n;
     pathsOut := pathsOut n; sequences := sequences n |}.

Definition push_sequence (e : SequenceElement) (n : Node) : Node :=
  {| count := count n; note := note n; pathsIn := pathsIn n;
     pathsOut := pathsOut n; sequences := sequences n ++ [e] |}.

Definition set_pathsIn (p : gmap N NodeReference) (n : Node) : Node :=
  {| count := count n; note := note n; pathsIn := p;
     pathsOut := pathsOut n; sequences := sequences n |}.

Definition set_pathsOut (p : gmap N NodeReference) (n : Node) : Node :=
  {| count := count n; note := note n; pathsIn := pathsIn n;
     pathsOut := p; sequences := sequences n |}.

(** [_ensureMappedValue(refs, key, () => ({count: 0, node})).count++] *)
Definition bump_reference (key : N) (node : N) (refs : gmap N NodeReference)
  : gmap N NodeReference :=
  let '(refs', r) :=
    _ensureMappedValue refs key
      (λ _, {| ref_count := 0; ref_node := node |}) in
  <[key := {| ref_count := S (ref_count r); ref_node := ref_node r |}]> refs'.

(** One turn of [_addEventIndex]: the body of its [if], up to the recursive
    call.  [seq] is the (already filtered) sequence the closure captured,
    [prev] the previously processed node.  Returns the graph after the turn
    and the node processed, which is the next turn's [prev]. *)
Definition _addEvent (seq : MidiSequence) (index : nat) (event : MidiIoEvent)
    (prev : option N) (g : RankedSequenceGraph) : RankedSequenceGraph * N :=
  let key := noteNumber event in
  let '(m1, created) :=
    _ensureMappedValue (_map g) key
      (λ _, {| count := 0; note := key; pathsIn := ∅; pathsOut := ∅;
               sequences := [] |}) in
  let node := key in
  let node_note := note created in
  let m2 := alter incr_count node m1 in
  let m3 :=
    alter (push_sequence {| eventIndex := index; sequence := seq |}) node m2 in
  let log := _insertSequence g ++ [node_note] in
  let m5 :=
    match prev with
    | Some prev =>
        let prev_note := prev in
        let m4 :=
          alter (λ n, set_pathsIn (bump_reference prev_note prev (pathsIn n)) n)
                node m3 in
        alter (λ n, set_pathsOut (bump_reference node_note node (pathsOut n)) n)
              prev m4
    | None => m3
    end in
  ({| name := name g; _map := m5; _insertSequence := log |}, node).

(** [_addEventIndex(index, prev)]: the recursion over [index], here over the
    events from [index] on ([rest] is [sequence.events.slice(index)]). *)
Fixpoint _addEventIndex (seq : MidiSequence) (rest : list MidiIoEvent)
    (index : nat) (prev : option N) (g : RankedSequenceGraph)
  : RankedSequenceGraph :=
  match rest with
  | [] => g
  | event :: rest' =>
      let '(g', node) := _addEvent seq index event prev g in
      _addEventIndex seq rest' (index + 1)%nat (Some node) g'
  end.

Definition is_noteOn (event : MidiIoEvent) : bool :=
  bool_decide (subtype event = noteOn).

(** [Object.assign({}, sequence, {events: sequence.events.filter(...)})] *)
Definition noteOnSequence (s : MidiSequence) : MidiSequence :=
  {| duration := duration s; events := List.filter is_noteOn (events s) |}.

Definition addSequence (g : RankedSequenceGraph) (s : MidiSequence)
  : RankedSequenceGraph :=
  let seq := noteOnSequence s in
  _addEventIndex seq (events seq) 0 None g.

(** The graph after a series of [addSequence] calls on a new graph. *)
Definition ingest (name : string) (ss : list MidiSequence)
  : RankedSequenceGraph :=
  foldl addSequence (newGraph name) ss.

(** ** Ranking queries *)

Definition getAllNotes (g : RankedSequenceGraph) : list RankedNoteElement :=
  sortBy (λ e, 0 - Z.of_nat (rank_count e))
    ((λ node, {| rank_count := count node; rank_note := note node |})
       <$> js_values (_map g)).

Definition getInsertSequence (g : RankedSequenceGraph) : list N :=
  _insertSequence g.

(** The result of [getNotePaths]; with the current note in front it is also
    the argument handed to a traversal policy. *)
Record NotePaths := mkNotePaths {
  paths_in : list RankedNoteElement;
  paths_out : list RankedNoteElement
}.

(** The inner [_build(path)] of [getNotePaths]; [path] selects
    [node.pathsIn] or [node.pathsOut].  [ref_node reference] stands for
    [reference.node.note]. *)
Definition _build (g : RankedSequenceGraph) (note : N) (exclude : list N)
    (path : Node → gmap N NodeReference) : list RankedNoteElement :=
  match path <$> _map g !! note with
  | None => []
  | Some pathData =>
      sortBy (λ element, 0 - Z.of_nat (rank_count element))
        (foldl
           (λ result reference,
              if indexOf (ref_node reference) exclude <? 0
              then result ++ [{| rank_count := ref_count reference;
                                 rank_note := ref_node reference |}]
              else result)
           [] (js_values pathData))
  end.

Definition getNotePaths (g : RankedSequenceGraph) (note : N)
    (exclude : list N) : NotePaths :=
  {| paths_in := _build g note exclude pathsIn;
     paths_out := _build g note exclude pathsOut |}.

(** ** Sequence retrieval *)

(** Offsets and durations for which the two subtractions of the partial
    branch are exact in doubles: integers below 2^51 in magnitude, so that
    the difference of two offsets and the duration less that difference stay
    below 2^53. *)
Definition exact_time (z : Z) : Prop := Z.abs z < 2 ^ 51.

Definition exact_times (s : MidiSequence) : Prop :=
  exact_time (duration s) ∧
  Forall (λ event, exact_time (offset event)) (events s).

(** The callback of [getSequencesForNote].  [None] is the [TypeError] of
    reading [offset] from an event that is not there.  The duration is
    computed in [Z]; that is the double the source computes for offsets and
    durations within [exact_times]. *)
Definition sequenceForElement (partial : bool) (element : SequenceElement)
  : option MidiSequence :=
  if negb partial then Some (sequence element)
  else
    let sequence := sequence element in
    matched ← events sequence !! eventIndex element;
    first ← events sequence !! 0%nat;
    Some {| duration := duration sequence - (offset matched - offset first);
            events := drop (eventIndex element) (events sequence) |}.

Definition getSequencesForNote (g : RankedSequenceGraph) (note : N)
    (partial : bool) : option (list MidiSequence) :=
  match _map g !! note with
  | None => Some []
  | Some node => mapM (sequenceForElement partial) (sequences node)
  end.

(** ** Traversal *)

(** What a policy receives: [{note, pathsIn, pathsOut}]. *)
Record NextParam := mkNextParam {
  next_note : N;
  next_paths : NotePaths
}.

(** A selection policy.  It is caller code and may keep state of its own
    (a random generator, a log of its calls): [σ] is that state. *)
Definition Policy (σ : Type) : Type :=
  NextParam → σ → option RankedNoteElement * σ.

Record TraverseGraphParam (σ : Type) := mkTraverse {
  attributes : Z;
  maxCount : Z;
  next : Policy σ;
  startNote : N
}.
Arguments attributes {σ} _.
Arguments maxCount {σ} _.
Arguments next {σ} _.
Arguments startNote {σ} _.
Arguments mkTraverse {σ} _ _ _ _.

Section traverse.
(** The two flags of the enum [TraverseAttributes], declared in the model
    module of the library; their values are parameters here. *)
Variables DisallowReuse ResetAfterExhaust : Z.
Context {σ : Type}.
Variable g : RankedSequenceGraph.
Variable p : TraverseGraphParam σ.

(** Truth of [attributes & flag]. *)
Definition has_attribute (attributes flag : Z) : bool :=
  negb (Z.land attributes flag =? 0).

(** The exclusion list once [note] is being visited, and the call of the
    policy at [note]: the two steps that [_push] repeats. *)
Definition visiting (exclude : list N) (note : N) : list N :=
  if has_attribute (attributes p) DisallowReuse
  then exclude ++ [note] else exclude.

Definition ask (note : N) (exclude : list N) (s : σ)
  : option RankedNoteElement * σ :=
  next p (mkNextParam note (getNotePaths g note exclude)) s.

(** [_push(noteElement, index)], with the closure variable [exclude] and
    the policy's state passed through.  The recursion of the source is not
    bounded when [maxCount] is never met (a negative bound), so the
    embedding counts the nested calls down from [fuel]; [None] is a walk
    that needs more of them. *)
Fixpoint _push (fuel : nat) (noteElement : option RankedNoteElement)
    (index : Z) (exclude : list N) (s : σ) : option (list N * σ) :=
  match noteElement with
  | None => Some ([], s)
  | Some noteElement =>
      if index =? maxCount p then Some ([], s)
      else
        match fuel with
        | O => None
        | S fuel' =>
            let note := rank_note noteElement in
            let exclude :=
              if has_attribute (attributes p) DisallowReuse
              then exclude ++ [note] else exclude in
            let '(nextElement, s) :=
              next p (mkNextParam note (getNotePaths g note exclude)) s in
            let '(nextElement, exclude, s) :=
              match nextElement with
              | None =>
                  if has_attribute (attributes p) ResetAfterExhaust
                  then
                    let exclude := [] in
                    let '(nextElement, s) :=
                      next p
                        (mkNextParam note (getNotePaths g note exclude)) s in
                    (nextElement, exclude, s)
                  else (None, exclude, s)
              | Some _ => (nextElement, exclude, s)
              end in
            '(rest, s) ← _push fuel' nextElement (index + 1) exclude s;
            Some (note :: rest, s)
        end
  end.

(** [this._map[startNote]] read as a ranked element: only its [note] is
    looked at. *)
Definition startElement : option RankedNoteElement :=
  (λ node, {| rank_count := count node; rank_note := note node |})
    <$> _map g !! startNote p.

Definition traverse (fuel : nat) (s : σ) : option (list N * σ) :=
  _push fuel startElement 0 [] s.
End traverse.

(** ** MidiSong *)

(** [_.max(array)]: lodash's [baseExtremum] with the comparator [>];
    [None] is [undefined]. *)
Definition _max (array : list Z) : option Z :=
  foldl (λ computed current,
           match computed with
           | None => Some current
           | Some c => if current >? c then Some current else computed
           end)
    None array.

(** The classes [MidiHeader] and [MidiTrack] are declared elsewhere in the
    library; of a track, [MidiSong] reads [sequence.duration] only. *)
Record MidiSong (MidiHeader MidiTrack : Type) := mkSong {
  header : MidiHeader;
  tracks : list MidiTrack
}.
Arguments header {MidiHeader MidiTrack} _.
Arguments tracks {MidiHeader MidiTrack} _.

(** [get duration()]: [_.chain(tracks).map("sequence.duration").max()]. *)
Definition song_duration {MidiHeader MidiTrack : Type}
    (track_sequence : MidiTrack → MidiSequence)
    (song : MidiSong MidiHeader MidiTrack) : option Z :=
  _max ((λ track, duration (track_sequence track)) <$> tracks song).

(** * Vocabulary of the properties *)

(** ** Graph states *)

(** The node that [addSequence] creates on the first encounter of [key]. *)
Definition newNode (key : N) : Node :=
  {| count := 0; note := key; pathsIn := ∅; pathsOut := ∅; sequences := [] |}.

(** The node found or created for [key]. *)
Definition node_at (g : RankedSequenceGraph) (key : N) : Node :=
  default (newNode key) (_map g !! key).

(** The previous node is in the arena when a turn of ingestion starts. *)
Definition prev_present (prev : option N) (g : RankedSequenceGraph) : Prop :=
  match prev with
  | Some p => is_Some (_map g !! p)
  | None => True
  end.

(** Every node is filed under its own note. *)
Definition notes_keyed (g : RankedSequenceGraph) : Prop :=
  ∀ k n, _map g !! k = Some n → note n = k.

(** Every edge record is filed under the note of the node it refers to. *)
Definition refs_keyed (g : RankedSequenceGraph) : Prop :=
  ∀ k j r,
    pathsIn (node_at g k) !! j = Some r ∨ pathsOut (node_at g k) !! j = Some r →
    ref_node r = j.

(** The node at [j] after a turn on an event of note [key], from the node at
    [j] before. *)
Definition touch (seq : MidiSequence) (index : nat) (key : N)
    (prev : option N) (j : N) (n : Node) : Node :=
  {| count := if decide (j = key) then S (count n) else count n;
     note := note n;
     pathsIn :=
       if decide (j = key)
       then match prev with
            | Some p => bump_reference p p (pathsIn n)
            | None => pathsIn n
            end
       else pathsIn n;
     pathsOut :=
       if decide (prev = Some j) then bump_reference key key (pathsOut n)
       else pathsOut n;
     sequences :=
       if decide (j = key)
       then sequences n ++ [{| eventIndex := index; sequence := seq |}]
       else sequences n |}.

Ltac decide_touch := unfold touch; repeat case_decide; simplify_eq.

(** ** Edges and counts *)

(** Transition counts, read from either end of an edge. *)
Definition out_count (g : RankedSequenceGraph) (x y : N) : option nat :=
  ref_count <$> pathsOut (node_at g x) !! y.

Definition in_count (g : RankedSequenceGraph) (y x : N) : option nat :=
  ref_count <$> pathsIn (node_at g y) !! x.

Definition edges_symmetric (g : RankedSequenceGraph) : Prop :=
  ∀ x y, out_count g x y = in_count g y x.

(** Sum of the [count] fields over all nodes. *)
Definition total_count (g : RankedSequenceGraph) : nat :=
  sum_list_with snd (map_to_list (count <$> _map g)).

(** The note-onset events of a series of sequences. *)
Definition noteOnEvents (ss : list MidiSequence) : list MidiIoEvent :=
  ss ≫= λ s, List.filter is_noteOn (events s).

(** Every node counts the entries of the insertion log with its note. *)
Definition counts_from_log (g : RankedSequenceGraph) : Prop :=
  ∀ k, (is_Some (_map g !! k) ↔ k ∈ _insertSequence g) ∧
       count (node_at g k) = length (filter (k =.) (_insertSequence g)).

(** ** The sequence index *)

(** The occurrences of [note] among the events [rest], which start at
    position [index] of [seq]. *)
Fixpoint occurrences_from (seq : MidiSequence) (note : N) (index : nat)
    (rest : list MidiIoEvent) : list SequenceElement :=
  match rest with
  | [] => []
  | event :: rest' =>
      (if decide (noteNumber event = note)
       then [{| eventIndex := index; sequence := seq |}] else [])
      ++ occurrences_from seq note (index + 1) rest'
  end.

(** The occurrences of [note] in the note-onset events of [s]. *)
Definition occurrences (note : N) (s : MidiSequence) : list SequenceElement :=
  occurrences_from (noteOnSequence s) note 0 (events (noteOnSequence s)).

(** Number of note-onset events of [s] that play [note]. *)
Definition noteOccurrences (note : N) (s : MidiSequence) : nat :=
  length (filter (λ event, noteNumber event = note)
            (List.filter is_noteOn (events s))).

(** ** Ranked lists *)

(** [a] is listed before [b]: by the iteratee first, by [R] among equals. *)
Definition sorted_then {A} (f : A → Z) (R : relation A) : relation A :=
  λ a b, f a < f b ∨ (f a = f b ∧ R a b).

(** Descending by count. *)
Definition descending_by_count (l : list RankedNoteElement) : Prop :=
  StronglySorted (λ a b, (rank_count b ≤ rank_count a)%nat) l.

(** The entry that [getNotePaths] makes of an edge record. *)
Definition ranked_reference (reference : NodeReference) : RankedNoteElement :=
  {| rank_count := ref_count reference; rank_note := ref_node reference |}.

(** [a] is listed before [b] by [getAllNotes]: larger count first, smaller
    note number first among equal counts. *)
Definition rank_before (a b : RankedNoteElement) : Prop :=
  (rank_count b < rank_count a)%nat ∨
  (rank_count a = rank_count b ∧ (rank_note a < rank_note b)%N).

(** ** Policies and the two-cycle *)

(** A policy that also records the arguments of its calls. *)
Definition logged {σ} (next : Policy σ) : Policy (σ * list NextParam) :=
  λ param st,
    let '(chosen, s) := next param st.1 in (chosen, (s, st.2 ++ [param])).

Definition with_logged_next {σ} (p : TraverseGraphParam σ)
  : TraverseGraphParam (σ * list NextParam) :=
  {| attributes := attributes p; maxCount := maxCount p;
     next := logged (next p); startNote := startNote p |}.

(** [a] and [b] have nodes, and each is the other's only neighbour, in and
    out. *)
Record two_cycle (g : RankedSequenceGraph) (a b : N) : Prop := {
  cycle_distinct : a ≠ b;
  cycle_nodes :
    ∃ na nb, _map g !! a = Some na ∧ _map g !! b = Some nb ∧
             note na = a ∧ note nb = b ∧
             (∃ r, pathsOut na = {[b := r]} ∧ ref_node r = b) ∧
             (∃ r, pathsIn na = {[b := r]} ∧ ref_node r = b) ∧
             (∃ r, pathsOut nb = {[a := r]} ∧ ref_node r = a) ∧
             (∃ r, pathsIn nb = {[a := r]} ∧ ref_node r = a)
}.

(** A policy that returns the top-ranked neighbour (of either list), and
    none only when a list it was offered is empty. *)
Definition top_ranked {σ} (next : Policy σ) : Prop :=
  ∀ param s,
    match (next param s).1 with
    | Some chosen =>
        head (paths_out (next_paths param)) = Some chosen ∨
        head (paths_in (next_paths param)) = Some chosen
    | None =>
        paths_out (next_paths param) = [] ∨ paths_in (next_paths param) = []
    end.

(** The simplest such policy: the head of [pathsOut]. *)
Definition topOut : Policy unit :=
  λ param s, (head (paths_out (next_paths param)), s).

(** ** Sample sequences *)

Definition noteOnAt (note : N) (offset : Z) : MidiIoEvent :=
  {| offset := offset; subtype := noteOn; noteNumber := note |}.

Definition noteOffAt (note : N) (offset : Z) : MidiIoEvent :=
  {| offset := offset; subtype := noteOff; noteNumber := note |}.

(** A sequence as the codec delivers it: each onset is followed by its
    release. *)
Definition mixedSequence : MidiSequence :=
  {| duration := 10;
     events := [noteOnAt 60 0; noteOffAt 60 4; noteOnAt 62 5; noteOffAt 62 9] |}.

(** Onsets only: 60, 62, 60. *)
Definition onsetSequence : MidiSequence :=
  {| duration := 12; events := [noteOnAt 60 0; noteOnAt 62 4; noteOnAt 60 8] |}.

(** Onsets 60, 62, 60, 64, 60, 62, with their releases. *)
Definition phraseSequence : MidiSequence :=
  {| duration := 24;
     events := [noteOnAt 60 0; noteOffAt 60 3; noteOnAt 62 4; noteOffAt 62 7;
                noteOnAt 60 8; noteOffAt 60 11; noteOnAt 64 12;
                noteOffAt 64 15; noteOnAt 60 16; noteOffAt 60 19;
                noteOnAt 62 20; noteOffAt 62 23] |}.

(** ** Ingested transitions, and walks *)

(** Number of times [y] comes directly after [x] in [notes], the note before
    [notes] being [prev]. *)
Fixpoint transitions_from (prev : option N) (notes : list N) (x y : N) : nat :=
  match notes with
  | [] => 0
  | n :: rest =>
      (if decide (prev = Some x ∧ n = y) then 1 else 0)
      + transitions_from (Some n) rest x y
  end.

(** Number of times an onset of [y] directly follows an onset of [x] within
    one of the sequences [ss]. *)
Definition transitions (ss : list MidiSequence) (x y : N) : nat :=
  sum_list_with
    (λ s, transitions_from None
            (noteNumber <$> List.filter is_noteOn (events s)) x y) ss.

(** An edge count as [getNotePaths] would report it: no entry for no edge. *)
Definition edge_entry (n : nat) : option nat :=
  if decide (n = 0%nat) then None else Some n.

(** No edge record has count 0. *)
Definition edges_positive (g : RankedSequenceGraph) : Prop :=
  ∀ x y, out_count g x y ≠ Some 0%nat.

(** A policy that chooses among the entries it is offered. *)
Definition from_offer {σ} (next : Policy σ) : Prop :=
  ∀ param s chosen,
    (next param s).1 = Some chosen →
    chosen ∈ paths_in (next_paths param) ∨
    chosen ∈ paths_out (next_paths param).

(** [b] is listed by [getNotePaths(a)], in or out. *)
Definition listed_neighbour (g : RankedSequenceGraph) (a b : N) : Prop :=
  ∃ e, rank_note e = b ∧
       (e ∈ paths_in (getNotePaths g a []) ∨
        e ∈ paths_out (getNotePaths g a [])).

(** Every note of the list but the last is followed by a listed neighbour. *)
Definition follows_edges (g : RankedSequenceGraph) (notes : list N) : Prop :=
  ∀ i a b, notes !! i = Some a → notes !! S i = Some b →
           listed_neighbour g a b.

(** The calls of the policy during the visit of [note]: one, with the notes
    excluded at that moment; or, with [reset], that one and a second with
    nothing excluded. *)
Definition visit_calls (g : RankedSequenceGraph) (reset : bool) (note : N)
    (group : list NextParam) : Prop :=
  ∃ exclude,
    group = [mkNextParam note (getNotePaths g note exclude)] ∨
    (reset = true ∧
     group = [mkNextParam note (getNotePaths g note exclude);
              mkNextParam note (getNotePaths g note [])]).

(** * Properties *)

(** ** One turn of ingestion, in closed form *)

Lemma _ensureMappedValue_eq {A} (m : gmap N A) key factory :
  _ensureMappedValue m key factory =
    (<[key := default (factory tt) (m !! key)]> m,
     default (factory tt) (m !! key)).
Proof.
  unfold _ensureMappedValue.
  destruct (m !! key) as [v|] eqn:E; simpl; [|done].
  by rewrite insert_id.
Qed.

Lemma bump_reference_eq key node refs :
  bump_reference key node refs =
    <[key := {| ref_count := S (from_option ref_count 0%nat (refs !! key));
                ref_node := from_option ref_node node (refs !! key) |}]> refs.
Proof.
  unfold bump_reference. rewrite _ensureMappedValue_eq, insert_insert_eq.
  by destruct (refs !! key).
Qed.

Lemma _addEvent_eq seq index event prev g :
  let key := noteNumber event in
  let n0 := node_at g key in
  let n3 := push_sequence {| eventIndex := index; sequence := seq |}
              (incr_count n0) in
  _addEvent seq index event prev g =
    ({| name := name g;
        _map :=
          match prev with
          | Some p =>
              alter (λ n, set_pathsOut
                            (bump_reference (note n0) key (pathsOut n)) n) p
                (<[key := set_pathsIn (bump_reference p p (pathsIn n3)) n3]>
                   (_map g))
          | None => <[key := n3]> (_map g)
          end;
        _insertSequence := _insertSequence g ++ [note n0] |}, key).
Proof.
  intros key n0 n3. unfold _addEvent.
  rewrite _ensureMappedValue_eq. fold key. fold (newNode key).
  change (default (newNode key) (_map g !! key)) with n0.
  rewrite !alter_insert_eq. fold n3.
  destruct prev as [p|]; [|done].
  by rewrite alter_insert_eq.
Qed.

Lemma _addEvent_present seq index event prev g :
  prev_present (Some (_addEvent seq index event prev g).2)
    (_addEvent seq index event prev g).1.
Proof.
  rewrite _addEvent_eq. simpl. destruct prev as [p|].
  - apply lookup_alter_is_Some. rewrite lookup_insert_eq. eauto.
  - rewrite lookup_insert_eq. eauto.
Qed.

(** A property of graphs that holds of a new graph and that every turn of
    ingestion keeps holds after any series of [addSequence] calls. *)
Lemma _addEventIndex_ind (P : RankedSequenceGraph → Prop) :
  (∀ seq index event prev g,
      P g → prev_present prev g → P (_addEvent seq index event prev g).1) →
  ∀ seq rest index prev g,
    P g → prev_present prev g → P (_addEventIndex seq rest index prev g).
Proof.
  intros Hstep seq rest.
  induction rest as [|event rest IH]; intros index prev g HP Hprev; [done|].
  simpl. pose proof (Hstep seq index event prev g HP Hprev) as HP'.
  pose proof (_addEvent_present seq index event prev g) as Hprev'.
  destruct (_addEvent seq index event prev g) as [g' node].
  by apply IH.
Qed.

Lemma ingest_ind (P : RankedSequenceGraph → Prop) :
  (∀ name, P (newGraph name)) →
  (∀ seq index event prev g,
      P g → prev_present prev g → P (_addEvent seq index event prev g).1) →
  ∀ name ss, P (ingest name ss).
Proof.
  intros Hnew Hstep name ss. unfold ingest.
  induction ss as [|s ss IH] using rev_ind; [apply Hnew|].
  rewrite foldl_app. simpl. unfold addSequence.
  by apply _addEventIndex_ind.
Qed.

(** ** Edges *)

Lemma node_at_lookup g key n : _map g !! key = Some n → node_at g key = n.
Proof. unfold node_at. by intros ->. Qed.

Lemma node_at_absent g key : _map g !! key = None → node_at g key = newNode key.
Proof. unfold node_at. by intros ->. Qed.

Lemma node_at_note g key : notes_keyed g → note (node_at g key) = key.
Proof.
  intros Hk. unfold node_at.
  destruct (_map g !! key) as [n|] eqn:E; simpl; [by apply Hk|done].
Qed.

Lemma touch_other seq index key prev j n :
  j ≠ key → prev ≠ Some j → touch seq index key prev j n = n.
Proof.
  intros Hj Hp. unfold touch. rewrite !decide_False by done.
  by destruct n.
Qed.

Lemma lookup_addEvent seq index event prev g j :
  notes_keyed g → prev_present prev g →
  _map (_addEvent seq index event prev g).1 !! j =
    if decide (j = noteNumber event) then
      Some (touch seq index (noteNumber event) prev j (node_at g j))
    else touch seq index (noteNumber event) prev j <$> _map g !! j.
Proof.
  intros Hk Hprev.
  pose proof (node_at_note g (noteNumber event) Hk) as Hn0.
  rewrite _addEvent_eq. simpl. rewrite Hn0.
  set (key := noteNumber event) in *.
  destruct prev as [p|]; simpl in *.
  - rewrite lookup_alter, !lookup_insert.
    destruct (decide (p = j)) as [->|Hpj], (decide (key = j)) as [->|Hkj];
      rewrite ?decide_True, ?decide_False by done; simpl.
    + f_equal. by decide_touch.
    + destruct (_map g !! j) as [n|]; [|done]. simpl. f_equal.
      destruct n. by decide_touch.
    + f_equal. by decide_touch.
    + destruct (_map g !! j) as [n|]; [|done]. simpl.
      rewrite touch_other; [done..|congruence].
  - rewrite lookup_insert.
    destruct (decide (key = j)) as [->|Hkj];
      rewrite ?decide_True, ?decide_False by done.
    + f_equal. by decide_touch.
    + destruct (_map g !! j) as [n|]; [|done]. simpl.
      by rewrite touch_other.
Qed.

Lemma node_at_addEvent seq index event prev g j :
  notes_keyed g → prev_present prev g →
  node_at (_addEvent seq index event prev g).1 j =
    touch seq index (noteNumber event) prev j (node_at g j).
Proof.
  intros Hk Hprev. unfold node_at at 1. rewrite lookup_addEvent by done.
  case_decide as Hj; [done|].
  unfold node_at. destruct (_map g !! j) as [n|] eqn:E; [done|]. simpl.
  rewrite touch_other; [done..|].
  intros ->. destruct Hprev as [? ?]. congruence.
Qed.

Lemma notes_keyed_addEvent seq index event prev g :
  notes_keyed g → prev_present prev g →
  notes_keyed (_addEvent seq index event prev g).1.
Proof.
  intros Hk Hprev j n. rewrite lookup_addEvent by done.
  case_decide as Hj.
  - intros [= <-]. simpl. by apply node_at_note.
  - intros (n' & Hn' & ->)%fmap_Some. simpl. by apply Hk.
Qed.

Lemma lookup_bump_reference key node refs j :
  bump_reference key node refs !! j =
    if decide (key = j)
    then Some {| ref_count := S (from_option ref_count 0%nat (refs !! key));
                 ref_node := from_option ref_node node (refs !! key) |}
    else refs !! j.
Proof. by rewrite bump_reference_eq, lookup_insert. Qed.

Lemma out_count_addEvent seq index event prev g x y :
  notes_keyed g → prev_present prev g →
  out_count (_addEvent seq index event prev g).1 x y =
    if decide (prev = Some x ∧ y = noteNumber event)
    then Some (S (default 0%nat (out_count g x y)))
    else out_count g x y.
Proof.
  intros Hk Hprev. unfold out_count. rewrite node_at_addEvent by done.
  simpl. destruct (decide (prev = Some x)) as [->|Hp].
  - rewrite lookup_bump_reference.
    destruct (decide (noteNumber event = y)) as [<-|Hy].
    + rewrite decide_True by done. simpl.
      by destruct (pathsOut (node_at g x) !! noteNumber event).
    + rewrite decide_False; [done|]. intros [_ ->]. done.
  - rewrite decide_False; [done|]. by intros [? _].
Qed.

Lemma in_count_addEvent seq index event prev g x y :
  notes_keyed g → prev_present prev g →
  in_count (_addEvent seq index event prev g).1 y x =
    if decide (prev = Some x ∧ y = noteNumber event)
    then Some (S (default 0%nat (in_count g y x)))
    else in_count g y x.
Proof.
  intros Hk Hprev. unfold in_count. rewrite node_at_addEvent by done.
  simpl. destruct (decide (y = noteNumber event)) as [->|Hy].
  - destruct prev as [p|].
    + rewrite lookup_bump_reference.
      destruct (decide (p = x)) as [->|Hp].
      * rewrite decide_True by done. simpl.
        by destruct (pathsIn (node_at g (noteNumber event)) !! x).
      * rewrite decide_False; [done|]. intros [[= ->] _]. done.
    + rewrite decide_False; [done|]. by intros [? _].
  - rewrite decide_False; [done|]. by intros [_ ?].
Qed.

Lemma edges_symmetric_addEvent seq index event prev g :
  notes_keyed g → edges_symmetric g → prev_present prev g →
  edges_symmetric (_addEvent seq index event prev g).1.
Proof.
  intros Hk Hsym Hprev x y.
  rewrite out_count_addEvent, in_count_addEvent by done.
  by rewrite Hsym.
Qed.

Lemma graph_symmetric_ingest name ss :
  notes_keyed (ingest name ss) ∧ edges_symmetric (ingest name ss).
Proof.
  apply (ingest_ind (λ g, notes_keyed g ∧ edges_symmetric g)); clear.
  - intros name. split.
    + intros k n. unfold newGraph. simpl. by rewrite lookup_empty.
    + intros x y. unfold out_count, in_count, node_at, newGraph. simpl.
      by rewrite !lookup_empty.
  - intros seq index event prev g [Hk Hsym] Hprev. split.
    + by apply notes_keyed_addEvent.
    + by apply edges_symmetric_addEvent.
Qed.

(** C1.  After any series of [addSequence] calls on a new graph, for every
    two notes [x] and [y] that have a node, the count of the edge to [y]
    kept in [x.pathsOut] is the count of the edge from [x] kept in
    [y.pathsIn]; the edge is there at both ends or at neither. *)
Theorem edge_count_symmetry name ss x y nx ny :
  _map (ingest name ss) !! x = Some nx →
  _map (ingest name ss) !! y = Some ny →
  ref_count <$> pathsOut nx !! y = ref_count <$> pathsIn ny !! x.
Proof.
  intros Hx Hy.
  destruct (graph_symmetric_ingest name ss) as [_ Hsym].
  specialize (Hsym x y). unfold out_count, in_count in Hsym.
  by rewrite (node_at_lookup _ _ _ Hx), (node_at_lookup _ _ _ Hy) in Hsym.
Qed.

(** ** Conservation of counts *)

Lemma sum_map_insert (c : gmap N nat) k v :
  (sum_list_with snd (map_to_list (<[k := v]> c)) + default 0 (c !! k) =
   v + sum_list_with snd (map_to_list c))%nat.
Proof.
  destruct (c !! k) as [x|] eqn:E; simpl.
  - pose proof (map_to_list_insert (delete k c) k v (lookup_delete_eq c k)) as Hv.
    pose proof (map_to_list_insert (delete k c) k x (lookup_delete_eq c k)) as Hx.
    rewrite insert_delete_eq in Hv. rewrite insert_delete_id in Hx by done.
    rewrite Hv, Hx. simpl. lia.
  - rewrite map_to_list_insert by done. simpl. lia.
Qed.

Lemma sortBy_insert_Permutation {A} (f : A → Z) x l :
  sortBy_insert f x l ≡ₚ x :: l.
Proof.
  induction l as [|y l IH]; simpl; [done|].
  destruct (f x <=? f y); [done|].
  by rewrite IH, Permutation_swap.
Qed.

Lemma sortBy_Permutation {A} (f : A → Z) l : sortBy f l ≡ₚ l.
Proof.
  induction l as [|x l IH]; simpl; [done|].
  by rewrite sortBy_insert_Permutation, IH.
Qed.

Lemma js_entries_Permutation {A} (m : gmap N A) : js_entries m ≡ₚ map_to_list m.
Proof. apply merge_sort_Permutation. Qed.

Lemma getAllNotes_sum g :
  sum_list_with rank_count (getAllNotes g) = total_count g.
Proof.
  unfold getAllNotes, total_count, js_values.
  rewrite sortBy_Permutation, map_to_list_fmap, js_entries_Permutation.
  induction (map_to_list (_map g)) as [|[k n] l IH]; simpl; [done|].
  f_equal. exact IH.
Qed.

Lemma total_count_addEvent seq index event prev g :
  notes_keyed g → prev_present prev g →
  total_count (_addEvent seq index event prev g).1 = S (total_count g).
Proof.
  intros Hk Hprev. unfold total_count.
  set (key := noteNumber event).
  assert (count <$> _map (_addEvent seq index event prev g).1 =
          <[key := S (count (node_at g key))]> (count <$> _map g)) as ->.
  { apply map_eq. intros j. rewrite lookup_fmap, lookup_addEvent by done.
    rewrite lookup_insert. fold key.
    destruct (decide (j = key)) as [->|Hj].
    - rewrite decide_True by done. simpl. by rewrite decide_True.
    - rewrite decide_False by done. rewrite lookup_fmap.
      destruct (_map g !! j) as [n|]; simpl; [|done].
      by rewrite decide_False. }
  pose proof (sum_map_insert (count <$> _map g) key
                (S (count (node_at g key)))) as Hsum.
  rewrite lookup_fmap in Hsum. unfold node_at in *.
  destruct (_map g !! key) as [n|]; simpl in *; lia.
Qed.

Lemma counts_match_log name ss :
  total_count (ingest name ss) = length (_insertSequence (ingest name ss)).
Proof.
  pose proof (ingest_ind
    (λ g, notes_keyed g ∧ total_count g = length (_insertSequence g))) as H.
  apply H; clear.
  - intros name. split; [|done].
    intros k n. unfold newGraph. simpl. by rewrite lookup_empty.
  - intros seq index event prev g [Hk Hc] Hprev. split.
    + by apply notes_keyed_addEvent.
    + rewrite total_count_addEvent by done.
      rewrite _addEvent_eq. simpl. rewrite length_app. simpl. lia.
Qed.

Lemma _addEventIndex_cons seq event rest index prev g :
  _addEventIndex seq (event :: rest) index prev g =
    _addEventIndex seq rest (index + 1) (Some (noteNumber event))
      (_addEvent seq index event prev g).1.
Proof. simpl. by rewrite _addEvent_eq. Qed.

Lemma prev_present_addEvent seq index event prev g :
  prev_present (Some (noteNumber event)) (_addEvent seq index event prev g).1.
Proof.
  pose proof (_addEvent_present seq index event prev g) as H.
  by rewrite _addEvent_eq in H |- *.
Qed.

Lemma _addEventIndex_log seq rest index prev g :
  notes_keyed g → prev_present prev g →
  _insertSequence (_addEventIndex seq rest index prev g) =
    _insertSequence g ++ (noteNumber <$> rest).
Proof.
  revert index prev g.
  induction rest as [|event rest IH]; intros index prev g Hk Hprev.
  - simpl. by rewrite app_nil_r.
  - rewrite _addEventIndex_cons, IH.
    + rewrite _addEvent_eq. simpl. rewrite node_at_note by done.
      by rewrite <-app_assoc.
    + by apply notes_keyed_addEvent.
    + apply prev_present_addEvent.
Qed.

Lemma notes_keyed_ingest name ss : notes_keyed (ingest name ss).
Proof. apply graph_symmetric_ingest. Qed.

Lemma ingest_snoc name ss s :
  ingest name (ss ++ [s]) = addSequence (ingest name ss) s.
Proof. unfold ingest. by rewrite foldl_app. Qed.

(** The insertion log is the note numbers of the note-onset events, in the
    order of ingestion. *)
Lemma insert_log_ingest name ss :
  getInsertSequence (ingest name ss) = noteNumber <$> noteOnEvents ss.
Proof.
  unfold getInsertSequence, noteOnEvents.
  induction ss as [|s ss IH] using rev_ind; [done|].
  rewrite ingest_snoc. unfold addSequence at 1.
  rewrite _addEventIndex_log; [|apply notes_keyed_ingest|done].
  rewrite IH, bind_app, fmap_app. simpl. by rewrite app_nil_r.
Qed.

(** C8.  After any series of [addSequence] calls on a new graph, the counts
    of [getAllNotes()] add up to the length of [getInsertSequence()], and
    both are the number of note-onset events ingested. *)
Theorem count_conservation name ss :
  sum_list_with rank_count (getAllNotes (ingest name ss)) =
    length (getInsertSequence (ingest name ss)) ∧
  length (getInsertSequence (ingest name ss)) = length (noteOnEvents ss).
Proof.
  split.
  - rewrite getAllNotes_sum. apply counts_match_log.
  - by rewrite insert_log_ingest, length_fmap.
Qed.

(** ** The sequence index *)

Lemma sequences_addEventIndex seq rest index prev g j :
  notes_keyed g → prev_present prev g →
  sequences (node_at (_addEventIndex seq rest index prev g) j) =
    sequences (node_at g j) ++ occurrences_from seq j index rest.
Proof.
  revert index prev g.
  induction rest as [|event rest IH]; intros index prev g Hk Hprev.
  - simpl. by rewrite app_nil_r.
  - rewrite _addEventIndex_cons, IH.
    + rewrite node_at_addEvent by done. simpl.
      destruct (decide (j = noteNumber event)) as [->|Hj].
      * rewrite decide_True by done. by rewrite <-app_assoc.
      * rewrite decide_False by done. done.
    + by apply notes_keyed_addEvent.
    + apply prev_present_addEvent.
Qed.

Lemma sequences_ingest name ss j :
  sequences (node_at (ingest name ss) j) = ss ≫= occurrences j.
Proof.
  induction ss as [|s ss IH] using rev_ind; [done|].
  rewrite ingest_snoc. unfold addSequence.
  rewrite sequences_addEventIndex; [|apply notes_keyed_ingest|done].
  rewrite IH, bind_app. simpl. by rewrite app_nil_r.
Qed.

Lemma occurrences_from_spec seq note index rest el :
  el ∈ occurrences_from seq note index rest ↔
  sequence el = seq ∧
  ∃ i event, eventIndex el = (index + i)%nat ∧ rest !! i = Some event ∧
             noteNumber event = note.
Proof.
  revert index. induction rest as [|event rest IH]; intros index; simpl.
  - split; [by intros ?%elem_of_nil|]. by intros (_ & i & e & _ & ? & _).
  - rewrite elem_of_app, IH. split.
    + intros [Hel|(Hs & i & e & Hi & Hl & Hn)].
      * case_decide as Hn; [|by apply elem_of_nil in Hel].
        apply list_elem_of_singleton in Hel as ->. simpl. split; [done|].
        exists 0%nat, event. by rewrite Nat.add_0_r.
      * split; [done|]. exists (S i), e. split_and!; [lia|done..].
    + intros (Hs & [|i] & e & Hi & Hl & Hn); simpl in Hl.
      * left. injection Hl as ->. rewrite decide_True by done.
        apply list_elem_of_singleton. destruct el; simpl in *.
        f_equal; [lia|done].
      * right. split; [done|]. exists i, e. split_and!; [lia|done..].
Qed.

Lemma occurrences_spec note s el :
  el ∈ occurrences note s ↔
  sequence el = noteOnSequence s ∧
  ∃ event, events (noteOnSequence s) !! eventIndex el = Some event ∧
           noteNumber event = note.
Proof.
  unfold occurrences. rewrite occurrences_from_spec. simpl. split.
  - intros (Hs & i & e & -> & Hl & Hn). eauto.
  - intros (Hs & e & Hl & Hn). eauto 10.
Qed.

Lemma sequence_occurrences_from seq note index rest :
  sequence <$> occurrences_from seq note index rest =
    replicate (length (filter (λ event, noteNumber event = note) rest)) seq.
Proof.
  revert index. induction rest as [|event rest IH]; intros index; [done|].
  simpl. rewrite fmap_app, IH, filter_cons.
  by case_decide.
Qed.

(** [getSequencesForNote] reads the sequence index of the node, or of no
    node at all. *)
Lemma getSequencesForNote_node_at g note partial :
  getSequencesForNote g note partial =
    mapM (sequenceForElement partial) (sequences (node_at g note)).
Proof.
  unfold getSequencesForNote, node_at.
  by destruct (_map g !! note).
Qed.

Lemma mapM_total {A B} (f : A → B) (l : list A) :
  mapM (λ x, Some (f x)) l = Some (f <$> l).
Proof. apply mapM_Some. induction l; constructor; done. Qed.

Lemma noteOnSequence_id s :
  Forall (λ event, subtype event = noteOn) (events s) → noteOnSequence s = s.
Proof.
  intros Hall. destruct s as [d es]. unfold noteOnSequence. simpl in *.
  f_equal. induction Hall as [|e es He Hes IH]; [done|].
  simpl. unfold is_noteOn at 1. rewrite bool_decide_eq_true_2 by done.
  by rewrite IH.
Qed.

(** C2, as amended.  [getSequencesForNote({note, partial: false})] returns
    one entry per recorded occurrence of the note, in the order of
    ingestion, and each entry is the sequence as [addSequence] kept it: the
    duration of the source sequence with the events restricted to its
    note-onset events.  That is the source sequence unchanged when all of its
    events are note onsets. *)
Theorem full_sequences_of_note name ss note :
  getSequencesForNote (ingest name ss) note false =
    Some (ss ≫= λ s, replicate (noteOccurrences note s) (noteOnSequence s)) ∧
  (∀ s, Forall (λ event, subtype event = noteOn) (events s) →
        noteOnSequence s = s).
Proof.
  split; [|apply noteOnSequence_id].
  rewrite getSequencesForNote_node_at, sequences_ingest.
  unfold sequenceForElement. simpl. rewrite mapM_total. f_equal.
  induction ss as [|s ss IH]; [done|].
  rewrite !bind_cons, fmap_app, IH. f_equal.
  apply sequence_occurrences_from.
Qed.

Lemma full_sequences_of_note_witness :
  getSequencesForNote (ingest "song" [onsetSequence; mixedSequence]) 60 false =
    Some [onsetSequence; onsetSequence; noteOnSequence mixedSequence] ∧
  noteOnSequence onsetSequence = onsetSequence.
Proof.
  destruct (full_sequences_of_note "song" [onsetSequence; mixedSequence] 60)
    as [Hfull Hsame].
  split; [exact Hfull|].
  apply Hsame. repeat constructor.
Defined.

(** C2, as stated, fails: note 60 was ingested from [mixedSequence], yet the
    one entry returned for it is not that sequence (its releases are gone). *)
Lemma full_sequence_differs_from_source :
  ∃ l, getSequencesForNote (ingest "song" [mixedSequence]) 60 false = Some l ∧
       length l = 1%nat ∧ mixedSequence ∉ l.
Proof.
  eexists. split; [vm_compute; reflexivity|]. split; [done|].
  intros Hin. apply list_elem_of_singleton in Hin. discriminate Hin.
Qed.

Lemma sequenceForElement_occurrence note s el :
  el ∈ occurrences note s → is_Some (sequenceForElement true el).
Proof.
  intros (Hs & e & He & _)%occurrences_spec.
  assert (is_Some (events (noteOnSequence s) !! 0%nat)) as [e0 He0].
  { apply lookup_lt_is_Some. apply lookup_lt_Some in He. lia. }
  unfold sequenceForElement. cbn [negb]. rewrite Hs, He, He0. by eexists.
Qed.

(** Retrieval does not fail on a graph built by ingestion. *)
Lemma getSequencesForNote_total name ss note partial :
  is_Some (getSequencesForNote (ingest name ss) note partial).
Proof.
  rewrite getSequencesForNote_node_at, sequences_ingest.
  apply mapM_is_Some, Forall_forall. intros el Hel. simpl.
  destruct partial; [|by eexists].
  apply list_elem_of_bind in Hel as (s & Hel & _).
  by eapply sequenceForElement_occurrence.
Qed.

(** C3, as amended.  For every sequence [s] added to the graph and the note of
    its first note-onset event, [getSequencesForNote({note, partial: true})]
    contains a result with the duration of [s] whose events are the
    note-onset events of [s]. *)
Theorem partial_round_trip name ss s first :
  s ∈ ss →
  head (List.filter is_noteOn (events s)) = Some first →
  ∃ l r,
    getSequencesForNote (ingest name ss) (noteNumber first) true = Some l ∧
    r ∈ l ∧ duration r = duration s ∧
    events r = List.filter is_noteOn (events s).
Proof.
  intros Hs Hfirst.
  destruct (getSequencesForNote_total name ss (noteNumber first) true)
    as [l Hl].
  exists l, (noteOnSequence s). split; [done|]. split; [|done].
  rewrite getSequencesForNote_node_at, sequences_ingest in Hl.
  apply mapM_Some in Hl.
  set (el := {| eventIndex := 0; sequence := noteOnSequence s |}).
  assert (el ∈ ss ≫= occurrences (noteNumber first)) as Hel.
  { apply list_elem_of_bind. exists s. split; [|done].
    apply occurrences_spec. split; [done|]. exists first. split; [|done].
    simpl. by rewrite <-head_lookup. }
  apply list_elem_of_lookup in Hel as [i Hi].
  destruct (Forall2_lookup_l _ _ _ _ _ Hl Hi) as (r & Hr & Hf).
  apply list_elem_of_lookup_2 in Hr.
  unfold sequenceForElement in Hf. simpl in Hf.
  rewrite <-head_lookup, Hfirst in Hf. simpl in Hf.
  injection Hf as <-. rewrite Z.sub_diag, Z.sub_0_r in Hr.
  exact Hr.
Qed.

(** C3, as stated, fails: [mixedSequence] starts with an onset of note 60,
    yet no partial result for 60 has the events of [mixedSequence]. *)
Lemma partial_result_differs_from_source :
  events mixedSequence !! 0%nat = Some (noteOnAt 60 0) ∧
  ∃ l, getSequencesForNote (ingest "song" [mixedSequence]) 60 true = Some l ∧
       ¬ ∃ r, r ∈ l ∧ duration r = duration mixedSequence ∧
              events r = events mixedSequence.
Proof.
  split; [done|].
  eexists. split; [vm_compute; reflexivity|].
  intros (r & Hr & _ & He).
  apply list_elem_of_singleton in Hr. subst r. discriminate He.
Qed.

Lemma partial_round_trip_witness :
  onsetSequence ∈ [mixedSequence; onsetSequence] ∧
  head (List.filter is_noteOn (events onsetSequence)) = Some (noteOnAt 60 0) ∧
  ∃ l r,
    getSequencesForNote (ingest "song" [mixedSequence; onsetSequence])
      (noteNumber (noteOnAt 60 0)) true = Some l ∧
    r ∈ l ∧ duration r = duration onsetSequence ∧
    events r = List.filter is_noteOn (events onsetSequence).
Proof.
  assert (onsetSequence ∈ [mixedSequence; onsetSequence]) as Hin.
  { apply list_elem_of_In. simpl. tauto. }
  split; [exact Hin|]. split; [reflexivity|].
  apply (partial_round_trip "song" [mixedSequence; onsetSequence]
           onsetSequence (noteOnAt 60 0) Hin).
  reflexivity.
Defined.

(** ** Ranking *)

Lemma sorted_then_le {A} (f : A → Z) R a b : sorted_then f R a b → f a ≤ f b.
Proof. intros [?|[? _]]; lia. Qed.

Lemma sortBy_insert_stable {A} (f : A → Z) (R : relation A) x l :
  Forall (R x) l →
  StronglySorted (sorted_then f R) l →
  StronglySorted (sorted_then f R) (sortBy_insert f x l).
Proof.
  intros Hx Hl. induction Hl as [|y l Hl IH Hy]; simpl.
  - repeat constructor.
  - apply Forall_cons in Hx as [Hxy Hxl].
    destruct (Z.leb_spec (f x) (f y)) as [Hle|Hlt].
    + constructor; [by constructor|].
      constructor.
      * destruct (decide (f x = f y)); [right|left]; [done|lia].
      * assert (Forall (λ z, R x z ∧ sorted_then f R y z) l) as Hboth
          by by apply Forall_and.
        eapply Forall_impl; [exact Hboth|].
        intros z [HRz Hyz]. apply sorted_then_le in Hyz.
        destruct (decide (f x = f z)); [right|left]; [done|lia].
    + constructor; [by apply IH|].
      rewrite sortBy_insert_Permutation. constructor; [|done].
      left. lia.
Qed.

(** [sortBy] is stable: what was in [R]-order stays so among equals. *)
Lemma sortBy_stable {A} (f : A → Z) (R : relation A) l :
  StronglySorted R l → StronglySorted (sorted_then f R) (sortBy f l).
Proof.
  induction 1 as [|x l Hl IH Hx]; simpl; [constructor|].
  apply sortBy_insert_stable; [|done].
  by rewrite sortBy_Permutation.
Qed.

Lemma StronglySorted_weaken {A} (R1 R2 : relation A) l :
  (∀ x y, R1 x y → R2 x y) → StronglySorted R1 l → StronglySorted R2 l.
Proof.
  intros HR. induction 1 as [|x l Hl IH Hx]; constructor; [done|].
  eapply Forall_impl; [done|]. auto.
Qed.

Lemma StronglySorted_any {A} (l : list A) : StronglySorted (λ _ _, True) l.
Proof. induction l; constructor; [done|]. by apply Forall_true. Qed.

Lemma sortBy_sorted {A} (f : A → Z) l :
  StronglySorted (λ a b, f a ≤ f b) (sortBy f l).
Proof.
  apply (StronglySorted_weaken (sorted_then f (λ _ _, True))).
  - intros x y. apply sorted_then_le.
  - apply sortBy_stable, StronglySorted_any.
Qed.

Lemma sortBy_descending l :
  descending_by_count (sortBy (λ e, 0 - Z.of_nat (rank_count e)) l).
Proof.
  eapply StronglySorted_weaken; [|apply sortBy_sorted].
  simpl. intros x y. lia.
Qed.

Lemma indexOf_spec x l : (indexOf x l <? 0) = bool_decide (x ∉ l).
Proof.
  assert ((-1) ≤ indexOf x l ∧ (indexOf x l < 0 ↔ x ∉ l)) as [_ H].
  { induction l as [|y l [IH1 IH2]]; simpl.
    - split; [lia|]. split; [intros _; apply not_elem_of_nil|lia].
    - rewrite not_elem_of_cons. case_decide as Hy.
      + split; [lia|]. split; [lia|]. intros [? _]. congruence.
      + destruct (Z.ltb_spec (indexOf x l) 0).
        * split; [lia|]. split; [|lia]. intros _. split; [congruence|].
          apply IH2. lia.
        * split; [lia|]. split; [lia|]. intros [_ ?]. apply IH2 in H0. lia. }
  destruct (Z.ltb_spec (indexOf x l) 0).
  - by rewrite bool_decide_eq_true_2 by (apply H; lia).
  - rewrite bool_decide_eq_false_2; [done|]. intros ?%H. lia.
Qed.

Lemma _build_eq g note exclude path :
  _build g note exclude path =
    match path <$> _map g !! note with
    | None => []
    | Some pathData =>
        sortBy (λ element, 0 - Z.of_nat (rank_count element))
          (ranked_reference <$>
             filter (λ reference, ref_node reference ∉ exclude)
               (js_values pathData))
    end.
Proof.
  unfold _build. destruct (path <$> _map g !! note) as [pathData|]; [|done].
  f_equal. 
  cut (∀ acc, foldl
           (λ result reference,
              if indexOf (ref_node reference) exclude <? 0
              then result ++ [{| rank_count := ref_count reference;
                                 rank_note := ref_node reference |}]
              else result) acc (js_values pathData) =
         acc ++ (ranked_reference <$>
             filter (λ reference, ref_node reference ∉ exclude)
               (js_values pathData))).
  { intros H. apply H. }
  induction (js_values pathData) as [|r l IH]; intros acc; simpl.
  - by rewrite app_nil_r.
  - rewrite IH, indexOf_spec, filter_cons.
    case_bool_decide as Hr; case_decide; try done.
    by rewrite fmap_cons, <-app_assoc.
Qed.

Lemma elem_of_js_values {A} (m : gmap N A) (v : A) :
  v ∈ js_values m ↔ ∃ k, m !! k = Some v.
Proof.
  unfold js_values. rewrite js_entries_Permutation, list_elem_of_fmap. split.
  - intros ([k v'] & -> & Hin). exists k. by apply elem_of_map_to_list.
  - intros [k Hk]. exists (k, v). split; [done|]. by apply elem_of_map_to_list.
Qed.

Lemma _build_ranked g note exclude path n :
  _map g !! note = Some n →
  descending_by_count (_build g note exclude path) ∧
  (∀ e, e ∈ _build g note exclude path ↔
        ∃ key reference, path n !! key = Some reference ∧
                         (ref_node reference ∉ exclude) ∧
                         e = ranked_reference reference).
Proof.
  intros Hn. rewrite _build_eq, Hn. simpl. split.
  - apply sortBy_descending.
  - intros e. rewrite sortBy_Permutation, list_elem_of_fmap. split.
    + intros (r & -> & [Hr (key & Hkey)%elem_of_js_values]%list_elem_of_filter).
      eauto.
    + intros (key & r & Hkey & Hr & ->). exists r. split; [done|].
      apply list_elem_of_filter. split; [done|].
      apply elem_of_js_values. eauto.
Qed.

(** C5.  For a note that has a node, [getNotePaths(note, exclude)] returns two
    lists, each in descending order of count.  The entries of [pathsIn]
    ([pathsOut]) are the edge records of the node's incoming (outgoing) edge
    map, as neighbour note and transition count, less those whose note is in
    [exclude]; so no excluded note occurs in either list. *)
Theorem getNotePaths_ranked g note exclude n :
  _map g !! note = Some n →
  let paths := getNotePaths g note exclude in
  descending_by_count (paths_in paths) ∧
  descending_by_count (paths_out paths) ∧
  (∀ e, e ∈ paths_in paths ↔
        ∃ key reference, pathsIn n !! key = Some reference ∧
                         (ref_node reference ∉ exclude) ∧
                         e = ranked_reference reference) ∧
  (∀ e, e ∈ paths_out paths ↔
        ∃ key reference, pathsOut n !! key = Some reference ∧
                         (ref_node reference ∉ exclude) ∧
                         e = ranked_reference reference) ∧
  (∀ e, e ∈ paths_in paths ++ paths_out paths → rank_note e ∉ exclude).
Proof.
  intros Hn paths.
  destruct (_build_ranked g note exclude pathsIn n Hn) as [Hin1 Hin2].
  destruct (_build_ranked g note exclude pathsOut n Hn) as [Hout1 Hout2].
  split_and!; try done.
  intros e [He|He]%elem_of_app.
  - apply Hin2 in He as (key & r & _ & Hr & ->). done.
  - apply Hout2 in He as (key & r & _ & Hr & ->). done.
Qed.

(** C6.  For a note that has no node, [getNotePaths] returns
    [{pathsIn: [], pathsOut: []}], whatever the exclusion list. *)
Theorem getNotePaths_unknown g note exclude :
  _map g !! note = None →
  getNotePaths g note exclude = {| paths_in := []; paths_out := [] |}.
Proof.
  intros Hnone. unfold getNotePaths, _build. by rewrite Hnone.
Qed.

(** ** The order of [getAllNotes] *)

#[global] Instance key_le_trans {A} : Transitive (@key_le A).
Proof. intros a b c. unfold key_le. lia. Qed.

#[global] Instance key_le_total {A} : Total (@key_le A).
Proof. intros a b. unfold key_le. lia. Qed.

Lemma js_entries_ascending {A} (m : gmap N A) :
  StronglySorted (λ a b, (a.1 < b.1)%N) (js_entries m).
Proof.
  pose proof (NoDup_fst_map_to_list m) as Hnd.
  rewrite <-js_entries_Permutation in Hnd.
  pose proof (StronglySorted_merge_sort key_le (map_to_list m)) as Hs.
  fold (js_entries m) in Hs.
  induction Hs as [|a l Hl IH Ha]; [constructor|].
  rewrite fmap_cons in Hnd. apply NoDup_cons in Hnd as [Hnotin Hnd].
  constructor; [by apply IH|].
  apply Forall_forall. intros b Hb.
  rewrite Forall_forall in Ha. specialize (Ha b Hb). unfold key_le in Ha.
  assert (a.1 ≠ b.1); [|lia].
  intros Heq. apply Hnotin. rewrite Heq. by apply list_elem_of_fmap_2.
Qed.

Lemma rank_before_asym a b : rank_before a b → rank_before b a → False.
Proof. unfold rank_before. lia. Qed.

Lemma getAllNotes_keys g :
  notes_keyed g →
  getAllNotes g =
    sortBy (λ e, 0 - Z.of_nat (rank_count e))
      ((λ kn, {| rank_count := count kn.2; rank_note := kn.1 |})
         <$> js_entries (_map g)).
Proof.
  intros Hk. unfold getAllNotes, js_values. f_equal.
  rewrite <-list_fmap_compose. apply list_fmap_ext.
  intros i [k n] Hi. simpl. f_equal.
  apply Hk. apply elem_of_map_to_list. rewrite <-js_entries_Permutation.
  by eapply list_elem_of_lookup_2.
Qed.

Lemma getAllNotes_sorted g :
  notes_keyed g → StronglySorted rank_before (getAllNotes g).
Proof.
  intros Hk. rewrite getAllNotes_keys by done.
  eapply StronglySorted_weaken;
    [|apply (sortBy_stable _ (λ a b, (rank_note a < rank_note b)%N))].
  - intros a b [Hlt|[Heq Hn]]; [left|right]; simpl in *; lia.
  - eapply StronglySorted_fmap; [|apply js_entries_ascending].
    by intros [k1 n1] [k2 n2].
Qed.

Lemma elem_of_getAllNotes g e :
  e ∈ getAllNotes g ↔
  ∃ k n, _map g !! k = Some n ∧
         e = {| rank_count := count n; rank_note := note n |}.
Proof.
  unfold getAllNotes. rewrite sortBy_Permutation, list_elem_of_fmap.
  split.
  - intros (n & -> & [k Hk]%elem_of_js_values). eauto.
  - intros (k & n & Hk & ->). exists n. split; [done|].
    apply elem_of_js_values. eauto.
Qed.

Lemma counts_from_log_ingest name ss : counts_from_log (ingest name ss).
Proof.
  pose proof (ingest_ind (λ g, notes_keyed g ∧ counts_from_log g)) as H.
  apply H; clear.
  - intros name. split.
    + intros k n. unfold newGraph. simpl. by rewrite lookup_empty.
    + intros k. unfold node_at, newGraph. simpl. rewrite lookup_empty.
      split; [|done]. split; [by intros [? ?]|by intros ?%elem_of_nil].
  - intros seq index event prev g [Hk Hc] Hprev.
    split; [by apply notes_keyed_addEvent|].
    intros k. destruct (Hc k) as [Hdom Hcount].
    rewrite node_at_addEvent, lookup_addEvent by done.
    rewrite _addEvent_eq. simpl. rewrite node_at_note by done.
    rewrite elem_of_app, list_elem_of_singleton, filter_app, length_app.
    rewrite filter_cons, filter_nil.
    destruct (decide (k = noteNumber event)) as [->|Hne].
    + simpl. split; [|lia].
      split; [by right|by eexists].
    + simpl. split; [|lia].
      rewrite fmap_is_Some. tauto.
Qed.

Lemma elem_of_getAllNotes_log name ss e :
  e ∈ getAllNotes (ingest name ss) ↔
  rank_note e ∈ getInsertSequence (ingest name ss) ∧
  rank_count e =
    length (filter (rank_note e =.) (getInsertSequence (ingest name ss))).
Proof.
  pose proof (notes_keyed_ingest name ss) as Hk.
  pose proof (counts_from_log_ingest name ss) as Hc.
  unfold getInsertSequence. rewrite elem_of_getAllNotes. split.
  - intros (k & n & Hn & ->). simpl. rewrite (Hk k n Hn).
    destruct (Hc k) as [Hdom Hcount].
    rewrite (node_at_lookup _ _ _ Hn) in Hcount.
    split; [|done]. apply Hdom. eauto.
  - intros [Hin Hcount]. destruct (Hc (rank_note e)) as [Hdom Hcount'].
    apply Hdom in Hin as [n Hn]. exists (rank_note e), n. split; [done|].
    rewrite (node_at_lookup _ _ _ Hn) in Hcount'.
    rewrite (Hk _ n Hn). destruct e. simpl in *. congruence.
Qed.

Lemma StronglySorted_NoDup {A} (R : relation A) l :
  (∀ x, ¬ R x x) → StronglySorted R l → NoDup l.
Proof.
  intros Hirr. induction 1 as [|x l Hl IH Hx]; constructor; [|done].
  intros Hin. rewrite Forall_forall in Hx. by apply (Hirr x), Hx.
Qed.

(** C9.  When the note numbers ingested are array indices (below 2^32 - 1,
    as MIDI note numbers are), so are the keys of the node map, which the
    engine then enumerates in ascending order; and [getAllNotes()] lists a
    note before another when its count is larger, or when the counts are
    equal and its note number is smaller.  The list is therefore fixed by
    the notes ingested and how often: two series of [addSequence] calls
    whose note-onset events carry the same notes the same number of times,
    in whatever order, give the same list. *)
Theorem getAllNotes_tie_break name ss :
  Forall (λ event, array_index (noteNumber event)) (noteOnEvents ss) →
  (∀ k, is_Some (_map (ingest name ss) !! k) → array_index k) ∧
  StronglySorted rank_before (getAllNotes (ingest name ss)) ∧
  ∀ name' ss',
    noteNumber <$> noteOnEvents ss' ≡ₚ noteNumber <$> noteOnEvents ss →
    getAllNotes (ingest name' ss') = getAllNotes (ingest name ss).
Proof.
  intros Hindex. split_and!.
  - intros k Hk.
    apply (proj1 (counts_from_log_ingest name ss k)) in Hk.
    pose proof (insert_log_ingest name ss) as Hlog.
    unfold getInsertSequence in Hlog. rewrite Hlog in Hk.
    apply list_elem_of_fmap in Hk as (event & -> & Hevent).
    rewrite Forall_forall in Hindex. by apply Hindex.
  - apply getAllNotes_sorted, notes_keyed_ingest.
  - intros name' ss' Hperm.
    apply (StronglySorted_unique_strong rank_before).
    + intros a b _ _ Hab Hba. destruct (rank_before_asym a b Hab Hba).
    + apply getAllNotes_sorted, notes_keyed_ingest.
    + apply getAllNotes_sorted, notes_keyed_ingest.
    + apply NoDup_Permutation.
      * eapply StronglySorted_NoDup;
          [|apply getAllNotes_sorted, notes_keyed_ingest].
        intros x Hx. by apply (rank_before_asym x x).
      * eapply StronglySorted_NoDup;
          [|apply getAllNotes_sorted, notes_keyed_ingest].
        intros x Hx. by apply (rank_before_asym x x).
      * intros e. rewrite !elem_of_getAllNotes_log, !insert_log_ingest.
        by rewrite Hperm.
Qed.

Lemma getAllNotes_tie_break_witness :
  Forall (λ event, array_index (noteNumber event))
    (noteOnEvents
       [{| duration := 4; events := [noteOnAt 60 0; noteOnAt 62 2] |}]) ∧
  StronglySorted rank_before
    (getAllNotes
       (ingest "a"
          [{| duration := 4; events := [noteOnAt 60 0; noteOnAt 62 2] |}])) ∧
  getAllNotes
    (ingest "b"
       [{| duration := 4; events := [noteOnAt 62 0; noteOnAt 60 2] |}]) =
  getAllNotes
    (ingest "a"
       [{| duration := 4; events := [noteOnAt 60 0; noteOnAt 62 2] |}]).
Proof.
  assert (Forall (λ event, array_index (noteNumber event))
    (noteOnEvents
       [{| duration := 4; events := [noteOnAt 60 0; noteOnAt 62 2] |}]))
    as Hindex by (repeat constructor).
  destruct (getAllNotes_tie_break "a"
    [{| duration := 4; events := [noteOnAt 60 0; noteOnAt 62 2] |}] Hindex)
    as (_ & Hsorted & Hsame).
  split; [exact Hindex|]. split; [exact Hsorted|].
  apply Hsame. simpl. apply Permutation_swap.
Defined.

(** ** Traversal *)

Section traverse_steps.
Variables DisallowReuse ResetAfterExhaust : Z.
Context {σ : Type}.
Variable g : RankedSequenceGraph.
Variable p : TraverseGraphParam σ.

Lemma _push_undefined fuel index exclude s :
  _push DisallowReuse ResetAfterExhaust g p fuel None index exclude s = Some ([], s).
Proof. by destruct fuel. Qed.

Lemma _push_maxCount fuel noteElement exclude s :
  _push DisallowReuse ResetAfterExhaust g p fuel noteElement (maxCount p) exclude s = Some ([], s).
Proof.
  destruct fuel, noteElement; simpl; by rewrite ?Z.eqb_refl.
Qed.

(** Rule 4: the policy chose a candidate. *)
Lemma _push_advance fuel e index exclude s chosen s' :
  index ≠ maxCount p →
  ask g p (rank_note e) (visiting DisallowReuse p exclude (rank_note e)) s = (Some chosen, s') →
  _push DisallowReuse ResetAfterExhaust g p (S fuel) (Some e) index exclude s =
    '(rest, s'') ← _push DisallowReuse ResetAfterExhaust g p fuel (Some chosen) (index + 1)
                     (visiting DisallowReuse p exclude (rank_note e)) s';
    Some (rank_note e :: rest, s'').
Proof.
  intros Hi Hask. simpl. rewrite (proj2 (Z.eqb_neq _ _) Hi).
  fold (visiting DisallowReuse p exclude (rank_note e)).
  fold (ask g p (rank_note e) (visiting DisallowReuse p exclude (rank_note e)) s).
  by rewrite Hask.
Qed.

(** Rule 6: no candidate and no reset configured. *)
Lemma _push_exhausted fuel e index exclude s s' :
  index ≠ maxCount p →
  has_attribute (attributes p) ResetAfterExhaust = false →
  ask g p (rank_note e) (visiting DisallowReuse p exclude (rank_note e)) s = (None, s') →
  _push DisallowReuse ResetAfterExhaust g p (S fuel) (Some e) index exclude s = Some ([rank_note e], s').
Proof.
  intros Hi Hreset Hask. simpl. rewrite (proj2 (Z.eqb_neq _ _) Hi).
  fold (visiting DisallowReuse p exclude (rank_note e)).
  fold (ask g p (rank_note e) (visiting DisallowReuse p exclude (rank_note e)) s).
  rewrite Hask, Hreset. by rewrite _push_undefined.
Qed.

(** Rule 5: no candidate, the exclusion list is cleared and the policy is
    asked again; its second answer is taken as it is. *)
Lemma _push_reset fuel e index exclude s s' again s'' :
  index ≠ maxCount p →
  has_attribute (attributes p) ResetAfterExhaust = true →
  ask g p (rank_note e) (visiting DisallowReuse p exclude (rank_note e)) s = (None, s') →
  ask g p (rank_note e) [] s' = (again, s'') →
  _push DisallowReuse ResetAfterExhaust g p (S fuel) (Some e) index exclude s =
    '(rest, s''') ← _push DisallowReuse ResetAfterExhaust g p fuel again (index + 1) [] s'';
    Some (rank_note e :: rest, s''').
Proof.
  intros Hi Hreset Hask Hagain. simpl. rewrite (proj2 (Z.eqb_neq _ _) Hi).
  fold (visiting DisallowReuse p exclude (rank_note e)).
  fold (ask g p (rank_note e) (visiting DisallowReuse p exclude (rank_note e)) s).
  rewrite Hask, Hreset. fold (ask g p (rank_note e) [] s').
  by rewrite Hagain.
Qed.

(** More nested calls than a walk needs do not change it. *)
Lemma _push_fuel_mono fuel fuel' noteElement index exclude s result :
  (fuel ≤ fuel')%nat →
  _push DisallowReuse ResetAfterExhaust g p fuel noteElement index exclude s = Some result →
  _push DisallowReuse ResetAfterExhaust g p fuel' noteElement index exclude s = Some result.
Proof.
  revert fuel' noteElement index exclude s result.
  induction fuel as [|fuel IH];
    intros fuel' noteElement index exclude s result Hle.
  - destruct noteElement as [e|]; simpl.
    + destruct (index =? maxCount p) eqn:E; [|done].
      intros [= <-]. destruct fuel'; simpl; by rewrite E.
    + intros [= <-]. by rewrite _push_undefined.
  - destruct fuel' as [|fuel']; [lia|].
    destruct noteElement as [e|]; simpl; [|done].
    destruct (index =? maxCount p); [done|].
    destruct (next p _ s) as [[chosen|] s1].
    + destruct (_push DisallowReuse ResetAfterExhaust g p fuel (Some chosen) _ _ s1) as [[rest s2]|] eqn:E;
        [|done].
      apply (IH fuel') in E; [|lia]. by rewrite E.
    + destruct (has_attribute (attributes p) ResetAfterExhaust).
      * destruct (next p _ s1) as [again s2].
        destruct (_push DisallowReuse ResetAfterExhaust g p fuel again _ _ s2) as [[rest s3]|] eqn:E; [|done].
        apply (IH fuel') in E; [|lia]. by rewrite E.
      * destruct (_push DisallowReuse ResetAfterExhaust g p fuel None _ _ s1) as [[rest s3]|] eqn:E; [|done].
        apply (IH fuel') in E; [|lia]. by rewrite E.
Qed.

(** With a bound that can be met, [maxCount - index] nested calls are
    enough, and the walk returns at most that many notes. *)
Lemma _push_total fuel noteElement index exclude s :
  index ≤ maxCount p →
  (Z.to_nat (maxCount p - index) ≤ fuel)%nat →
  ∃ notes s', _push DisallowReuse ResetAfterExhaust g p fuel noteElement index exclude s = Some (notes, s') ∧
              Z.of_nat (length notes) ≤ maxCount p - index.
Proof.
  revert noteElement index exclude s.
  induction fuel as [|fuel IH]; intros noteElement index exclude s Hi Hfuel.
  - assert (index = maxCount p) as -> by lia.
    rewrite _push_maxCount. exists [], s. simpl. split; [done|lia].
  - destruct noteElement as [e|]; simpl.
    2:{ exists [], s. simpl. split; [done|lia]. }
    destruct (Z.eqb_spec index (maxCount p)) as [->|Hne].
    { exists [], s. simpl. split; [done|lia]. }
    fold (visiting DisallowReuse p exclude (rank_note e)).
    destruct (next p _ s) as [[chosen|] s1].
    + destruct (IH (Some chosen) (index + 1)
                  (visiting DisallowReuse p exclude (rank_note e)) s1)
        as (notes & s2 & -> & Hlen); [lia..|].
      exists (rank_note e :: notes), s2. simpl. split; [done|lia].
    + destruct (has_attribute (attributes p) ResetAfterExhaust).
      * destruct (next p _ s1) as [again s2].
        destruct (IH again (index + 1) [] s2)
          as (notes & s3 & -> & Hlen); [lia..|].
        exists (rank_note e :: notes), s3. simpl. split; [done|lia].
      * rewrite _push_undefined. exists [rank_note e], s1.
        simpl. split; [done|lia].
Qed.
End traverse_steps.

(** X14.  With a bound that is not negative, [traverse] returns, and at most
    [maxCount] notes; [maxCount] nested calls are enough. *)
Lemma traverse_total DisallowReuse ResetAfterExhaust {σ} g
    (p : TraverseGraphParam σ) fuel s :
  0 ≤ maxCount p → (Z.to_nat (maxCount p) ≤ fuel)%nat →
  ∃ notes s',
    traverse DisallowReuse ResetAfterExhaust g p fuel s = Some (notes, s') ∧
    Z.of_nat (length notes) ≤ maxCount p.
Proof.
  intros Hmax Hfuel.
  destruct (_push_total DisallowReuse ResetAfterExhaust g p fuel
              (startElement g p) 0 [] s) as (notes & s' & Hrun & Hlen).
  - done.
  - by rewrite Z.sub_0_r.
  - exists notes, s'. split; [done|]. lia.
Qed.

(** C7.  When [startNote] has no node, [traverse] returns the empty list,
    whatever the graph, the bound, the attributes and the policy; the policy
    is not called (its state is as before, and a policy that records its calls
    has recorded none). *)
Theorem traverse_unknown_start DisallowReuse ResetAfterExhaust {σ}
    g (p : TraverseGraphParam σ) fuel s :
  _map g !! startNote p = None →
  traverse DisallowReuse ResetAfterExhaust g p fuel s = Some ([], s) ∧
  traverse DisallowReuse ResetAfterExhaust g (with_logged_next p) fuel (s, [])
    = Some ([], (s, [])).
Proof.
  intros Hnone. unfold traverse, startElement. simpl.
  rewrite Hnone. simpl. by rewrite !_push_undefined.
Qed.

(** C10.  With [maxCount = 0], [traverse] returns the empty list (so not
    [startNote] either, also when it has a node), whatever the graph, the
    attributes and the policy; the policy is not called. *)
Theorem traverse_maxCount_zero DisallowReuse ResetAfterExhaust {σ}
    g (p : TraverseGraphParam σ) fuel s :
  maxCount p = 0 →
  traverse DisallowReuse ResetAfterExhaust g p fuel s = Some ([], s) ∧
  traverse DisallowReuse ResetAfterExhaust g (with_logged_next p) fuel (s, [])
    = Some ([], (s, [])).
Proof.
  intros Hzero. unfold traverse. split.
  - rewrite <-Hzero. apply _push_maxCount.
  - replace 0 with (maxCount (with_logged_next p)) at 1 by done.
    apply _push_maxCount.
Qed.

(** *** The two-cycle scenario *)

Lemma two_cycle_sym g a b : two_cycle g a b → two_cycle g b a.
Proof.
  intros [Hne (na & nb & Ha & Hb & Hna & Hnb & H1 & H2 & H3 & H4)].
  split; [done|]. exists nb, na. by split_and!.
Qed.

Lemma js_values_singleton {A} (k : N) (v : A) : js_values ({[k := v]} : gmap N A) = [v].
Proof. unfold js_values, js_entries. by rewrite map_to_list_singleton. Qed.

Lemma _build_singleton g note exclude path n k r :
  _map g !! note = Some n → path n = {[k := r]} →
  _build g note exclude path =
    if decide (ref_node r ∈ exclude) then [] else [ranked_reference r].
Proof.
  intros Hn Hp. rewrite _build_eq, Hn. simpl. rewrite Hp, js_values_singleton.
  rewrite filter_cons, filter_nil.
  destruct (decide (ref_node r ∈ exclude)).
  - by rewrite decide_False by auto.
  - by rewrite decide_True.
Qed.

Section cycle_policy.
Variables DisallowReuse ResetAfterExhaust : Z.
Context {σ : Type}.
Variable g : RankedSequenceGraph.
Variable p : TraverseGraphParam σ.
Hypothesis Hnext : top_ranked (next p).

Lemma two_cycle_paths a b exclude :
  two_cycle g a b →
  if decide (b ∈ exclude)
  then getNotePaths g a exclude = {| paths_in := []; paths_out := [] |}
  else ∃ cin cout,
      getNotePaths g a exclude =
        {| paths_in := [{| rank_count := cin; rank_note := b |}];
           paths_out := [{| rank_count := cout; rank_note := b |}] |}.
Proof.
  intros [Hne (na & nb & Ha & Hb & Hna & Hnb & (ro & Hro & Hrob) &
               (ri & Hri & Hrib) & _)].
  unfold getNotePaths.
  rewrite (_build_singleton g a exclude pathsIn na b ri Ha Hri).
  rewrite (_build_singleton g a exclude pathsOut na b ro Ha Hro).
  rewrite Hrob, Hrib. destruct (decide (b ∈ exclude)); [done|].
  exists (ref_count ri), (ref_count ro). unfold ranked_reference.
  by rewrite Hrob, Hrib.
Qed.

(** At [a], with [b] not excluded, the policy chooses [b]. *)
Lemma two_cycle_chosen a b exclude s :
  two_cycle g a b → b ∉ exclude →
  ∃ chosen s', ask g p a exclude s = (Some chosen, s') ∧
               rank_note chosen = b.
Proof.
  intros Hc Hb. pose proof (two_cycle_paths a b exclude Hc) as Hp.
  rewrite decide_False in Hp by done. destruct Hp as (cin & cout & Hp).
  unfold ask.
  pose proof (Hnext (mkNextParam a (getNotePaths g a exclude)) s) as Hn.
  rewrite Hp in Hn |- *.
  destruct (next p _ s) as [[chosen|] s']; simpl in Hn.
  - exists chosen, s'. split; [done|].
    by destruct Hn as [[= <-]|[= <-]].
  - by destruct Hn as [[=]|[=]].
Qed.

(** At [a], with [b] excluded, the policy has nothing to choose. *)
Lemma two_cycle_none a b exclude s :
  two_cycle g a b → b ∈ exclude →
  ∃ s', ask g p a exclude s = (None, s').
Proof.
  intros Hc Hb. pose proof (two_cycle_paths a b exclude Hc) as Hp.
  rewrite decide_True in Hp by done.
  unfold ask.
  pose proof (Hnext (mkNextParam a (getNotePaths g a exclude)) s) as Hn.
  rewrite Hp in Hn |- *.
  destruct (next p _ s) as [[chosen|] s']; simpl in Hn.
  - by destruct Hn as [[=]|[=]].
  - by exists s'.
Qed.
End cycle_policy.

Lemma has_attribute_self flag : flag ≠ 0 → has_attribute flag flag = true.
Proof.
  intros Hf. unfold has_attribute. rewrite Z.land_diag.
  by rewrite (proj2 (Z.eqb_neq _ _) Hf).
Qed.

Lemma has_attribute_other flag flag' :
  Z.land flag flag' = 0 → has_attribute flag flag' = false.
Proof. intros Hf. unfold has_attribute. by rewrite Hf. Qed.

Lemma land_lor_absorb a b : Z.land (Z.lor a b) a = a.
Proof.
  apply Z.bits_inj'. intros n _. rewrite Z.land_spec, Z.lor_spec.
  by destruct (Z.testbit a n), (Z.testbit b n).
Qed.

Lemma has_attribute_lor_l flag flag' :
  flag ≠ 0 → has_attribute (Z.lor flag flag') flag = true.
Proof.
  intros Hf. unfold has_attribute. rewrite land_lor_absorb.
  by rewrite (proj2 (Z.eqb_neq _ _) Hf).
Qed.

Lemma has_attribute_lor_r flag flag' :
  flag' ≠ 0 → has_attribute (Z.lor flag flag') flag' = true.
Proof. rewrite Z.lor_comm. apply has_attribute_lor_l. Qed.

Section two_cycle_walk.
Variables DisallowReuse ResetAfterExhaust : Z.
Context {σ : Type}.
Variable g : RankedSequenceGraph.
Variable p : TraverseGraphParam σ.
Hypothesis Hnext : top_ranked (next p).
Hypothesis Hdisallow :
  has_attribute (attributes p) DisallowReuse = true.

(** Visiting [a] while [b] is still allowed: on to [b]. *)
Lemma cycle_advance a b fuel e index exclude s :
  two_cycle g a b → rank_note e = a → index ≠ maxCount p →
  b ∉ exclude ++ [a] →
  ∃ chosen s',
    rank_note chosen = b ∧
    _push DisallowReuse ResetAfterExhaust g p (S fuel) (Some e) index
      exclude s =
      '(rest, s'') ← _push DisallowReuse ResetAfterExhaust g p fuel
                       (Some chosen) (index + 1) (exclude ++ [a]) s';
      Some (a :: rest, s'').
Proof.
  intros Hc He Hi Hb.
  destruct (two_cycle_chosen g p Hnext a b (exclude ++ [a]) s Hc Hb)
    as (chosen & s' & Hask & Hchosen).
  exists chosen, s'. split; [done|].
  rewrite (_push_advance _ _ g p fuel e index exclude s chosen s' Hi).
  - unfold visiting. by rewrite Hdisallow, He.
  - unfold visiting. by rewrite Hdisallow, He.
Qed.

(** Visiting [a] with [b] excluded and no reset: the walk ends at [a]. *)
Lemma cycle_stuck a b fuel e index exclude s :
  two_cycle g a b → rank_note e = a → index ≠ maxCount p →
  has_attribute (attributes p) ResetAfterExhaust = false →
  b ∈ exclude ++ [a] →
  ∃ s', _push DisallowReuse ResetAfterExhaust g p (S fuel) (Some e) index
          exclude s = Some ([a], s').
Proof.
  intros Hc He Hi Hreset Hb.
  destruct (two_cycle_none g p Hnext a b (exclude ++ [a]) s Hc Hb)
    as (s' & Hask).
  exists s'.
  rewrite (_push_exhausted _ _ g p fuel e index exclude s s' Hi Hreset).
  - by rewrite He.
  - unfold visiting. by rewrite Hdisallow, He.
Qed.

(** Visiting [a] with [b] excluded and reset configured: the exclusion
    list is cleared, and the walk goes on to [b]. *)
Lemma cycle_reset a b fuel e index exclude s :
  two_cycle g a b → rank_note e = a → index ≠ maxCount p →
  has_attribute (attributes p) ResetAfterExhaust = true →
  b ∈ exclude ++ [a] →
  ∃ chosen s',
    rank_note chosen = b ∧
    _push DisallowReuse ResetAfterExhaust g p (S fuel) (Some e) index
      exclude s =
      '(rest, s'') ← _push DisallowReuse ResetAfterExhaust g p fuel
                       (Some chosen) (index + 1) [] s';
      Some (a :: rest, s'').
Proof.
  intros Hc He Hi Hreset Hb.
  destruct (two_cycle_none g p Hnext a b (exclude ++ [a]) s Hc Hb)
    as (s1 & Hask).
  destruct (two_cycle_chosen g p Hnext a b [] s1 Hc) as
    (chosen & s' & Hagain & Hchosen); [apply not_elem_of_nil|].
  exists chosen, s'. split; [done|].
  rewrite (_push_reset _ _ g p fuel e index exclude s s1 (Some chosen) s'
             Hi Hreset).
  - by rewrite He.
  - unfold visiting. by rewrite Hdisallow, He.
  - by rewrite He.
Qed.
End two_cycle_walk.

Lemma two_cycle_once DisallowReuse ResetAfterExhaust {σ} g (next : Policy σ)
    a b s :
  DisallowReuse ≠ 0 → Z.land DisallowReuse ResetAfterExhaust = 0 →
  two_cycle g a b → top_ranked next →
  ∃ s',
    traverse DisallowReuse ResetAfterExhaust g
      (mkTraverse DisallowReuse 5 next a) 2 s = Some ([a; b], s').
Proof.
  intros HD Hdisjoint Hab Hnext. pose proof (two_cycle_sym g a b Hab) as Hba.
  set (p := mkTraverse DisallowReuse 5 next a).
  assert (has_attribute (attributes p) DisallowReuse = true) as Hd
    by by apply has_attribute_self.
  assert (has_attribute (attributes p) ResetAfterExhaust = false) as Hr
    by by apply has_attribute_other.
  assert (a ≠ b) as Hne by by destruct Hab.
  assert (b ∉ [] ++ [a]) as Hfree.
  { simpl. rewrite list_elem_of_singleton. congruence. }
  assert (a ∈ ([] ++ [a]) ++ [b]) as Hblocked.
  { simpl. rewrite !elem_of_cons. auto. }
  destruct (cycle_nodes g a b Hab) as (na & nb & Ha & _ & Hna & _).
  set (e0 := {| rank_count := count na; rank_note := note na |}).
  unfold traverse.
  replace (startElement g p) with (Some e0)
    by (unfold startElement; simpl; by rewrite Ha).
  destruct (cycle_advance DisallowReuse ResetAfterExhaust g p Hnext Hd
              a b 1 e0 0 [] s) as (e1 & s1 & He1 & ->); try done.
  destruct (cycle_stuck DisallowReuse ResetAfterExhaust g p Hnext Hd
              b a 0 e1 (0 + 1) ([] ++ [a]) s1) as (s2 & ->); try done.
  by exists s2.
Qed.

Lemma two_cycle_cycling DisallowReuse ResetAfterExhaust {σ} g
    (next : Policy σ) a b s :
  DisallowReuse ≠ 0 → ResetAfterExhaust ≠ 0 →
  two_cycle g a b → top_ranked next →
  ∃ s',
    traverse DisallowReuse ResetAfterExhaust g
      (mkTraverse (Z.lor DisallowReuse ResetAfterExhaust) 5 next a) 5 s =
    Some ([a; b; a; b; a], s').
Proof.
  intros HD HR Hab Hnext. pose proof (two_cycle_sym g a b Hab) as Hba.
  set (p := mkTraverse (Z.lor DisallowReuse ResetAfterExhaust) 5 next a).
  assert (has_attribute (attributes p) DisallowReuse = true) as Hd
    by by apply has_attribute_lor_l.
  assert (has_attribute (attributes p) ResetAfterExhaust = true) as Hr
    by by apply has_attribute_lor_r.
  assert (a ≠ b) as Hne by by destruct Hab.
  assert (b ∉ [] ++ [a]) as Hfree.
  { simpl. rewrite list_elem_of_singleton. congruence. }
  assert (a ∈ ([] ++ [a]) ++ [b]) as Hblocked.
  { simpl. rewrite !elem_of_cons. auto. }
  destruct (cycle_nodes g a b Hab) as (na & nb & Ha & _ & Hna & _).
  set (e0 := {| rank_count := count na; rank_note := note na |}).
  unfold traverse.
  replace (startElement g p) with (Some e0)
    by (unfold startElement; simpl; by rewrite Ha).
  destruct (cycle_advance DisallowReuse ResetAfterExhaust g p Hnext Hd
              a b 4 e0 0 [] s) as (e1 & s1 & He1 & ->); try done.
  destruct (cycle_reset DisallowReuse ResetAfterExhaust g p Hnext Hd
              b a 3 e1 (0 + 1) ([] ++ [a]) s1) as (e2 & s2 & He2 & ->);
    try done.
  destruct (cycle_advance DisallowReuse ResetAfterExhaust g p Hnext Hd
              a b 2 e2 (0 + 1 + 1) [] s2) as (e3 & s3 & He3 & ->); try done.
  destruct (cycle_reset DisallowReuse ResetAfterExhaust g p Hnext Hd
              b a 1 e3 (0 + 1 + 1 + 1) ([] ++ [a]) s3)
    as (e4 & s4 & He4 & ->); try done.
  destruct (cycle_advance DisallowReuse ResetAfterExhaust g p Hnext Hd
              a b 0 e4 (0 + 1 + 1 + 1 + 1) [] s4) as (e5 & s5 & He5 & ->);
    try done.
  change (0 + 1 + 1 + 1 + 1 + 1) with (maxCount p).
  rewrite _push_maxCount. simpl. by exists s5.
Qed.

(** C4.  On a graph in which 60 and 62 are each other's only neighbours,
    with [maxCount = 5], a policy that returns the top-ranked neighbour (none
    when the offered lists are empty) and either note as [startNote]:
    with [DisallowReuse] alone the walk returns the start note and then the
    other note, each once, and ends there; with
    [DisallowReuse | ResetAfterExhaust] it returns five notes, alternating
    between the two.  Five nested calls are enough for both. *)
Theorem two_cycle_traversal DisallowReuse ResetAfterExhaust {σ} g
    (next : Policy σ) start other fuel s :
  DisallowReuse ≠ 0 → ResetAfterExhaust ≠ 0 →
  Z.land DisallowReuse ResetAfterExhaust = 0 →
  two_cycle g 60 62 →
  (start = 60%N ∧ other = 62%N) ∨ (start = 62%N ∧ other = 60%N) →
  top_ranked next → (5 ≤ fuel)%nat →
  (∃ s',
     traverse DisallowReuse ResetAfterExhaust g
       (mkTraverse DisallowReuse 5 next start) fuel s =
     Some ([start; other], s')) ∧
  (∃ s',
     traverse DisallowReuse ResetAfterExhaust g
       (mkTraverse (Z.lor DisallowReuse ResetAfterExhaust) 5 next start)
       fuel s =
     Some ([start; other; start; other; start], s')).
Proof.
  intros HD HR Hdisjoint Hcycle Hstart Hnext Hfuel.
  assert (two_cycle g start other) as Hc.
  { destruct Hstart as [[-> ->]|[-> ->]]; [done|by apply two_cycle_sym]. }
  split.
  - destruct (two_cycle_once DisallowReuse ResetAfterExhaust g next
                start other s HD Hdisjoint Hc Hnext) as [s' Hs'].
    exists s'. unfold traverse in *.
    eapply _push_fuel_mono; [|exact Hs']. lia.
  - destruct (two_cycle_cycling DisallowReuse ResetAfterExhaust g next
                start other s HD HR Hc Hnext) as [s' Hs'].
    exists s'. unfold traverse in *.
    eapply _push_fuel_mono; [|exact Hs']. lia.
Qed.

Lemma two_cycle_ingest : two_cycle (ingest "cycle" [onsetSequence]) 60 62.
Proof.
  split; [done|].
  eexists _, _. split_and!; [vm_compute; reflexivity..| | | |].
  all: eexists; split; vm_compute; reflexivity.
Qed.

Lemma topOut_top_ranked : top_ranked topOut.
Proof.
  intros param s. unfold topOut. simpl.
  destruct (paths_out (next_paths param)) as [|e l]; simpl; auto.
Qed.

Lemma two_cycle_traversal_witness :
  1 ≠ 0 ∧ 2 ≠ 0 ∧ Z.land 1 2 = 0 ∧
  two_cycle (ingest "cycle" [onsetSequence]) 60 62 ∧
  top_ranked topOut ∧
  (∃ s',
     traverse 1 2 (ingest "cycle" [onsetSequence])
       (mkTraverse 1 5 topOut 60%N) 5 () = Some ([60; 62]%N, s')) ∧
  (∃ s',
     traverse 1 2 (ingest "cycle" [onsetSequence])
       (mkTraverse (Z.lor 1 2) 5 topOut 60%N) 5 () =
     Some ([60; 62; 60; 62; 60]%N, s')).
Proof.
  split; [lia|]. split; [lia|]. split; [reflexivity|].
  split; [apply two_cycle_ingest|]. split; [apply topOut_top_ranked|].
  apply (two_cycle_traversal 1 2 (ingest "cycle" [onsetSequence]) topOut
           60%N 62%N 5%nat ()).
  - lia.
  - lia.
  - reflexivity.
  - apply two_cycle_ingest.
  - left. split; reflexivity.
  - apply topOut_top_ranked.
  - lia.
Defined.

(** ** References are keys *)

Lemma bump_reference_keyed key refs j r :
  (∀ j r, refs !! j = Some r → ref_node r = j) →
  bump_reference key key refs !! j = Some r → ref_node r = j.
Proof.
  intros Hrefs. rewrite lookup_bump_reference.
  case_decide as Hj; [|by apply Hrefs]. subst j.
  intros [= <-]. simpl.
  destruct (refs !! key) as [r|] eqn:E; simpl; [by apply Hrefs|done].
Qed.

Lemma refs_keyed_ingest name ss : refs_keyed (ingest name ss).
Proof.
  pose proof (ingest_ind (λ g, notes_keyed g ∧ refs_keyed g)) as H.
  apply H; clear.
  - intros name. split.
    + intros k n. unfold newGraph. simpl. by rewrite lookup_empty.
    + intros k j r. unfold node_at, newGraph. simpl.
      rewrite !lookup_empty. simpl. rewrite lookup_empty. by intros [|].
  - intros seq index event prev g [Hk Hr] Hprev.
    split; [by apply notes_keyed_addEvent|].
    intros k j r. rewrite node_at_addEvent by done. simpl.
    intros [Hin|Hout].
    + case_decide; [|by eapply Hr; left].
      destruct prev as [p|]; [|by eapply Hr; left].
      eapply bump_reference_keyed; [|done].
      intros ???. by eapply Hr; left.
    + case_decide; [|by eapply Hr; right].
      eapply bump_reference_keyed; [|done].
      intros ???. by eapply Hr; right.
Qed.

(** X7.  An edge record refers to a node of the graph, and that node's [note] is
    the key of the record: [reference.node.note] is [ref_node reference]. *)
Lemma reference_node_note name ss k n j r :
  _map (ingest name ss) !! k = Some n →
  pathsIn n !! j = Some r ∨ pathsOut n !! j = Some r →
  ∃ nj, _map (ingest name ss) !! ref_node r = Some nj ∧
        note nj = ref_node r ∧ ref_node r = j.
Proof.
  intros Hn Hr.
  pose proof (refs_keyed_ingest name ss k j r) as Hkey.
  rewrite (node_at_lookup _ _ _ Hn) in Hkey. rewrite (Hkey Hr).
  destruct (graph_symmetric_ingest name ss) as [Hk Hsym].
  assert (is_Some (_map (ingest name ss) !! j)) as [nj Hnj].
  { destruct (_map (ingest name ss) !! j) as [nj|] eqn:E; [by eexists|].
    exfalso. pose proof (Hsym k j) as H1. pose proof (Hsym j k) as H2.
    unfold out_count, in_count in H1, H2.
    rewrite (node_at_lookup _ _ _ Hn), (node_at_absent _ _ E) in H1, H2.
    simpl in H1, H2. rewrite lookup_empty in H1, H2. simpl in H1, H2.
    destruct Hr as [Hr|Hr]; rewrite Hr in *; done. }
  exists nj. split_and!; [done| |done]. by apply Hk.
Qed.

Lemma edge_count_symmetry_witness :
  _map (ingest "song" [phraseSequence]) !! 60%N =
    Some (node_at (ingest "song" [phraseSequence]) 60) ∧
  _map (ingest "song" [phraseSequence]) !! 62%N =
    Some (node_at (ingest "song" [phraseSequence]) 62) ∧
  ref_count <$> pathsOut (node_at (ingest "song" [phraseSequence]) 60) !! 62%N =
    ref_count <$> pathsIn (node_at (ingest "song" [phraseSequence]) 62) !! 60%N.
Proof.
  assert (_map (ingest "song" [phraseSequence]) !! 60%N =
            Some (node_at (ingest "song" [phraseSequence]) 60)) as H60
    by (vm_compute; reflexivity).
  assert (_map (ingest "song" [phraseSequence]) !! 62%N =
            Some (node_at (ingest "song" [phraseSequence]) 62)) as H62
    by (vm_compute; reflexivity).
  split; [exact H60|]. split; [exact H62|].
  exact (edge_count_symmetry "song" [phraseSequence] 60 62 _ _ H60 H62).
Defined.

Lemma getNotePaths_ranked_witness :
  _map (ingest "song" [phraseSequence]) !! 60%N =
    Some (node_at (ingest "song" [phraseSequence]) 60) ∧
  descending_by_count
    (paths_in (getNotePaths (ingest "song" [phraseSequence]) 60 [64%N])) ∧
  descending_by_count
    (paths_out (getNotePaths (ingest "song" [phraseSequence]) 60 [64%N])) ∧
  getNotePaths (ingest "song" [phraseSequence]) 60 [64%N] =
    {| paths_in := [{| rank_count := 1; rank_note := 62 |}];
       paths_out := [{| rank_count := 2; rank_note := 62 |}] |}.
Proof.
  assert (_map (ingest "song" [phraseSequence]) !! 60%N =
            Some (node_at (ingest "song" [phraseSequence]) 60)) as Hn
    by (vm_compute; reflexivity).
  destruct (getNotePaths_ranked (ingest "song" [phraseSequence]) 60 [64%N]
              _ Hn) as (Hin & Hout & _).
  split; [exact Hn|]. split; [exact Hin|]. split; [exact Hout|].
  vm_compute. reflexivity.
Defined.

Lemma getNotePaths_unknown_witness :
  _map (ingest "song" [phraseSequence]) !! 61%N = None ∧
  getNotePaths (ingest "song" [phraseSequence]) 61 [60%N] =
    {| paths_in := []; paths_out := [] |}.
Proof.
  assert (_map (ingest "song" [phraseSequence]) !! 61%N = None) as Hnone
    by (vm_compute; reflexivity).
  split; [exact Hnone|].
  exact (getNotePaths_unknown _ 61 [60%N] Hnone).
Defined.

Lemma traverse_unknown_start_witness :
  _map (ingest "song" [phraseSequence]) !! 61%N = None ∧
  traverse 1 2 (ingest "song" [phraseSequence])
    (mkTraverse 1 5 topOut 61%N) 0 () = Some ([], ()) ∧
  traverse 1 2 (ingest "song" [phraseSequence])
    (with_logged_next (mkTraverse 1 5 topOut 61%N)) 0 ((), []) =
    Some ([], ((), [])).
Proof.
  assert (_map (ingest "song" [phraseSequence]) !! 61%N = None) as Hnone
    by (vm_compute; reflexivity).
  split; [exact Hnone|].
  exact (traverse_unknown_start 1 2 (ingest "song" [phraseSequence])
           (mkTraverse 1 5 topOut 61%N) 0 () Hnone).
Defined.

Lemma traverse_maxCount_zero_witness :
  is_Some (_map (ingest "song" [phraseSequence]) !! 60%N) ∧
  maxCount (mkTraverse 3 0 topOut 60%N) = 0 ∧
  traverse 1 2 (ingest "song" [phraseSequence])
    (mkTraverse 3 0 topOut 60%N) 3 () = Some ([], ()) ∧
  traverse 1 2 (ingest "song" [phraseSequence])
    (with_logged_next (mkTraverse 3 0 topOut 60%N)) 3 ((), []) =
    Some ([], ((), [])).
Proof.
  split; [vm_compute; eexists; reflexivity|]. split; [reflexivity|].
  exact (traverse_maxCount_zero 1 2 (ingest "song" [phraseSequence])
           (mkTraverse 3 0 topOut 60%N) 3 () eq_refl).
Defined.

(** The scenario of section 8: onsets 60, 62, 60 ingested once. *)
Example scenario_60_62_60 :
  let g := ingest "song" [onsetSequence] in
  count (node_at g 60) = 2%nat ∧ count (node_at g 62) = 1%nat ∧
  out_count g 60 62 = Some 1%nat ∧ out_count g 62 60 = Some 1%nat ∧
  in_count g 60 62 = Some 1%nat ∧
  getAllNotes g = [{| rank_count := 2; rank_note := 60 |};
                   {| rank_count := 1; rank_note := 62 |}] ∧
  getInsertSequence g = [60; 62; 60]%N.
Proof. vm_compute. by repeat split. Qed.

(** * Further properties of ingestion *)

Lemma out_count_addEventIndex seq rest index prev g x y :
  notes_keyed g → prev_present prev g → edges_positive g →
  edges_positive (_addEventIndex seq rest index prev g) ∧
  default 0%nat (out_count (_addEventIndex seq rest index prev g) x y) =
    (default 0%nat (out_count g x y)
     + transitions_from prev (noteNumber <$> rest) x y)%nat.
Proof.
  revert index prev g.
  induction rest as [|event rest IH]; intros index prev g Hk Hprev Hpos.
  - simpl. split; [done|lia].
  - rewrite _addEventIndex_cons.
    assert (edges_positive (_addEvent seq index event prev g).1) as Hpos'.
    { intros a b. rewrite out_count_addEvent by done.
      case_decide; [done|apply Hpos]. }
    destruct (IH (index + 1)%nat (Some (noteNumber event))
                (_addEvent seq index event prev g).1) as [Hp ->];
      [by apply notes_keyed_addEvent|apply prev_present_addEvent|done|].
    split; [done|].
    rewrite out_count_addEvent by done. rewrite fmap_cons. simpl.
    destruct (decide (prev = Some x ∧ noteNumber event = y)) as [[-> <-]|Hne].
    + rewrite decide_True by done. simpl. lia.
    + rewrite decide_False by (intros [? ?]; by apply Hne). lia.
Qed.

Lemma out_count_ingest name ss x y :
  edges_positive (ingest name ss) ∧
  default 0%nat (out_count (ingest name ss) x y) = transitions ss x y.
Proof.
  induction ss as [|s ss [IHp IHc]] using rev_ind.
  - split.
    + intros a b. unfold out_count, node_at, ingest. simpl.
      rewrite lookup_empty. simpl. by rewrite lookup_empty.
    + unfold out_count, node_at, ingest. simpl.
      rewrite lookup_empty. simpl. by rewrite lookup_empty.
  - rewrite ingest_snoc. unfold addSequence.
    destruct (out_count_addEventIndex (noteOnSequence s)
                (events (noteOnSequence s)) 0 None (ingest name ss) x y)
      as [Hp Hc]; [apply notes_keyed_ingest|done|done|].
    split; [done|]. rewrite Hc, IHc. unfold transitions.
    rewrite sum_list_with_app. simpl. lia.
Qed.

Lemma edge_entry_default (o : option nat) :
  o ≠ Some 0%nat → o = edge_entry (default 0%nat o).
Proof.
  unfold edge_entry. destruct o as [[|n]|]; simpl; [done|done|done].
Qed.

Lemma edge_counts_ingest name ss x y :
  out_count (ingest name ss) x y = edge_entry (transitions ss x y) ∧
  in_count (ingest name ss) y x = edge_entry (transitions ss x y).
Proof.
  destruct (out_count_ingest name ss x y) as [Hpos Hcount].
  destruct (graph_symmetric_ingest name ss) as [_ Hsym].
  rewrite <-Hsym, <-Hcount. split; by apply edge_entry_default.
Qed.

(** Every node's [count] is the length of its [sequences]. *)
Lemma count_is_sequences_length name ss k :
  count (node_at (ingest name ss) k) =
    length (sequences (node_at (ingest name ss) k)).
Proof.
  revert k.
  pose proof (ingest_ind (λ g, notes_keyed g ∧
    ∀ k, count (node_at g k) = length (sequences (node_at g k)))) as H.
  apply H; clear.
  - intros name. split.
    + intros k n. unfold newGraph. simpl. by rewrite lookup_empty.
    + intros k. unfold node_at, newGraph. simpl. by rewrite lookup_empty.
  - intros seq index event prev g [Hk Hc] Hprev.
    split; [by apply notes_keyed_addEvent|].
    intros k. rewrite node_at_addEvent by done. simpl.
    case_decide; [|done]. rewrite length_app, Hc. simpl. lia.
Qed.

(** X3.  The edge maps count the direct successions of note onsets: the record for
    [y] in [x.pathsOut], and the one for [x] in [y.pathsIn], hold the number of
    times an onset of [y] directly followed an onset of [x] within one
    ingested sequence; there is no record when that never happened.  The last
    onset of a sequence and the first of the next make no edge. *)
Theorem edge_counts_are_transitions name ss x y :
  out_count (ingest name ss) x y = edge_entry (transitions ss x y) ∧
  in_count (ingest name ss) y x = edge_entry (transitions ss x y).
Proof. apply edge_counts_ingest. Qed.

Lemma filter_fmap_length {A} (f : A → N) (k : N) (l : list A) :
  length (filter (k =.) (f <$> l)) = length (filter (λ x, f x = k) l).
Proof.
  induction l as [|a l IH]; [done|].
  rewrite fmap_cons, !filter_cons.
  destruct (decide (k = f a)) as [->|Hne].
  - rewrite decide_True by done. simpl. by rewrite IH.
  - by rewrite decide_False by congruence.
Qed.

Lemma count_ingest name ss k :
  count (node_at (ingest name ss) k) =
    length (filter (λ event, noteNumber event = k) (noteOnEvents ss)).
Proof.
  destruct (counts_from_log_ingest name ss k) as [_ ->].
  pose proof (insert_log_ingest name ss) as Hlog.
  unfold getInsertSequence in Hlog. rewrite Hlog.
  apply filter_fmap_length.
Qed.

Lemma present_ingest name ss k :
  is_Some (_map (ingest name ss) !! k) ↔ k ∈ noteNumber <$> noteOnEvents ss.
Proof.
  destruct (counts_from_log_ingest name ss k) as [-> _].
  pose proof (insert_log_ingest name ss) as Hlog.
  unfold getInsertSequence in Hlog. by rewrite Hlog.
Qed.

Lemma transitions_app ss1 ss2 x y :
  transitions (ss1 ++ ss2) x y = (transitions ss1 x y + transitions ss2 x y)%nat.
Proof. unfold transitions. apply sum_list_with_app. Qed.

Lemma noteOnEvents_app ss1 ss2 :
  noteOnEvents (ss1 ++ ss2) = noteOnEvents ss1 ++ noteOnEvents ss2.
Proof. unfold noteOnEvents. apply bind_app. Qed.

Lemma ingest_app name name1 name2 ss1 ss2 k x y :
  count (node_at (ingest name (ss1 ++ ss2)) k) =
    (count (node_at (ingest name1 ss1) k)
     + count (node_at (ingest name2 ss2) k))%nat ∧
  sequences (node_at (ingest name (ss1 ++ ss2)) k) =
    sequences (node_at (ingest name1 ss1) k)
    ++ sequences (node_at (ingest name2 ss2) k) ∧
  default 0%nat (out_count (ingest name (ss1 ++ ss2)) x y) =
    (default 0%nat (out_count (ingest name1 ss1) x y)
     + default 0%nat (out_count (ingest name2 ss2) x y))%nat ∧
  getInsertSequence (ingest name (ss1 ++ ss2)) =
    getInsertSequence (ingest name1 ss1)
    ++ getInsertSequence (ingest name2 ss2).
Proof.
  split_and!.
  - rewrite !count_ingest, noteOnEvents_app, filter_app, length_app. done.
  - rewrite !sequences_ingest. apply bind_app.
  - rewrite !(proj2 (out_count_ingest _ _ _ _)). apply transitions_app.
  - rewrite !insert_log_ingest, noteOnEvents_app. apply fmap_app.
Qed.

(** X4.  Ingestion accumulates.  After a series of sequences followed by a second
    series, every node's count, its sequence index, every edge count and the
    insertion log are those of the first series and those of the second
    series put together; so adding the same sequences twice doubles every
    count. *)
Theorem ingestion_accumulates name name1 name2 ss1 ss2 k x y :
  count (node_at (ingest name (ss1 ++ ss2)) k) =
    (count (node_at (ingest name1 ss1) k)
     + count (node_at (ingest name2 ss2) k))%nat ∧
  sequences (node_at (ingest name (ss1 ++ ss2)) k) =
    sequences (node_at (ingest name1 ss1) k)
    ++ sequences (node_at (ingest name2 ss2) k) ∧
  default 0%nat (out_count (ingest name (ss1 ++ ss2)) x y) =
    (default 0%nat (out_count (ingest name1 ss1) x y)
     + default 0%nat (out_count (ingest name2 ss2) x y))%nat ∧
  getInsertSequence (ingest name (ss1 ++ ss2)) =
    getInsertSequence (ingest name1 ss1)
    ++ getInsertSequence (ingest name2 ss2).
Proof. apply ingest_app. Qed.

(** X6.  A sequence without note-on events leaves the graph as it is. *)
Theorem addSequence_without_onsets g s :
  Forall (λ event, subtype event ≠ noteOn) (events s) → addSequence g s = g.
Proof.
  intros Hnone. unfold addSequence.
  assert (events (noteOnSequence s) = []) as ->; [|done].
  unfold noteOnSequence. simpl.
  induction Hnone as [|e es He Hes IH]; [done|].
  simpl. unfold is_noteOn at 1. by rewrite bool_decide_eq_false_2.
Qed.

Lemma addSequence_without_onsets_witness :
  Forall (λ event, subtype event ≠ noteOn)
    (events {| duration := 8; events := [noteOffAt 60 0; noteOffAt 62 4] |}) ∧
  addSequence (ingest "song" [phraseSequence])
    {| duration := 8; events := [noteOffAt 60 0; noteOffAt 62 4] |} =
  ingest "song" [phraseSequence].
Proof.
  assert (Forall (λ event, subtype event ≠ noteOn)
    (events {| duration := 8; events := [noteOffAt 60 0; noteOffAt 62 4] |}))
    as Hnone by (repeat constructor; discriminate).
  split; [exact Hnone|].
  exact (addSequence_without_onsets _ _ Hnone).
Defined.

(** X5.  [addSequence] only adds.  A node that is in the graph stays, under the
    same note; its count does not go down, its sequence index is extended at
    the end, and every edge record it has stays with a count that does not go
    down. *)
Theorem addSequence_only_grows name ss s k n :
  _map (ingest name ss) !! k = Some n →
  ∃ n', _map (addSequence (ingest name ss) s) !! k = Some n' ∧
        note n' = note n ∧ (count n ≤ count n')%nat ∧
        sequences n `prefix_of` sequences n' ∧
        (∀ j r, pathsOut n !! j = Some r →
                ∃ r', pathsOut n' !! j = Some r' ∧
                      (ref_count r ≤ ref_count r')%nat) ∧
        (∀ j r, pathsIn n !! j = Some r →
                ∃ r', pathsIn n' !! j = Some r' ∧
                      (ref_count r ≤ ref_count r')%nat).
Proof.
  intros Hn. rewrite <-ingest_snoc.
  assert (is_Some (_map (ingest name (ss ++ [s])) !! k)) as [n' Hn'].
  { apply (proj2 (present_ingest _ _ _)).
    rewrite noteOnEvents_app, fmap_app, elem_of_app.
    left. apply (proj1 (present_ingest name ss k)). eauto. }
  exists n'. split; [done|].
  pose proof (notes_keyed_ingest name ss k n Hn) as Hnote.
  pose proof (notes_keyed_ingest name (ss ++ [s]) k n' Hn') as Hnote'.
  destruct (ingest_app name name name ss [s] k k k)
    as (Hcount & Hseq & _).
  rewrite (node_at_lookup _ _ _ Hn), (node_at_lookup _ _ _ Hn') in Hcount, Hseq.
  split_and!.
  - congruence.
  - lia.
  - rewrite Hseq. by apply prefix_app_r.
  - intros j r Hr.
    destruct (edge_counts_ingest name ss k j) as [Hout _].
    destruct (edge_counts_ingest name (ss ++ [s]) k j) as [Hout' _].
    unfold out_count in Hout, Hout'.
    rewrite (node_at_lookup _ _ _ Hn), Hr in Hout.
    rewrite (node_at_lookup _ _ _ Hn'), transitions_app in Hout'.
    unfold edge_entry in Hout, Hout'. simpl in Hout.
    destruct (decide (transitions ss k j = 0%nat)) as [Hz|Hz]; [done|].
    injection Hout as Hout.
    rewrite decide_False in Hout' by lia.
    destruct (pathsOut n' !! j) as [r'|]; [|done].
    exists r'. split; [done|]. injection Hout' as Hout'. lia.
  - intros j r Hr.
    destruct (edge_counts_ingest name ss j k) as [_ Hin].
    destruct (edge_counts_ingest name (ss ++ [s]) j k) as [_ Hin'].
    unfold in_count in Hin, Hin'.
    rewrite (node_at_lookup _ _ _ Hn), Hr in Hin.
    rewrite (node_at_lookup _ _ _ Hn'), transitions_app in Hin'.
    unfold edge_entry in Hin, Hin'. simpl in Hin.
    destruct (decide (transitions ss j k = 0%nat)) as [Hz|Hz]; [done|].
    injection Hin as Hin.
    rewrite decide_False in Hin' by lia.
    destruct (pathsIn n' !! j) as [r'|]; [|done].
    exists r'. split; [done|]. injection Hin' as Hin'. lia.
Qed.

(** * Further properties of the ranking queries *)

Lemma filter_fmap {A B} (f : A → B) (P : B → Prop) `{∀ b, Decision (P b)}
    (l : list A) :
  filter P (f <$> l) = f <$> filter (λ a, P (f a)) l.
Proof.
  induction l as [|a l IH]; [done|].
  rewrite fmap_cons, !filter_cons. case_decide; [|done].
  by rewrite fmap_cons, IH.
Qed.

Lemma filter_all {A} (P : A → Prop) `{∀ a, Decision (P a)} (l : list A) :
  Forall P l → filter P l = l.
Proof.
  induction 1 as [|a l Ha Hl IH]; [done|].
  by rewrite filter_cons, decide_True, IH.
Qed.

Lemma sortBy_insert_head {A} (f : A → Z) x l :
  Forall (λ z, f x ≤ f z) l → sortBy_insert f x l = x :: l.
Proof.
  destruct 1 as [|y l Hy _]; [done|].
  simpl. by rewrite (proj2 (Z.leb_le _ _) Hy).
Qed.

Lemma filter_sortBy_insert {A} (f : A → Z) (P : A → Prop)
    `{∀ a, Decision (P a)} x l :
  StronglySorted (λ a b, f a ≤ f b) l →
  filter P (sortBy_insert f x l) =
    if decide (P x) then sortBy_insert f x (filter P l) else filter P l.
Proof.
  induction 1 as [|y l Hl IH Hy]; simpl.
  - rewrite filter_cons, filter_nil. by case_decide.
  - destruct (Z.leb_spec (f x) (f y)) as [Hle|Hlt].
    + rewrite (filter_cons _ x). case_decide; [|done].
      rewrite sortBy_insert_head; [done|].
      apply Forall_forall. intros z [_ Hz]%list_elem_of_filter.
      apply elem_of_cons in Hz as [->|Hz]; [done|].
      rewrite Forall_forall in Hy. specialize (Hy z Hz). lia.
    + rewrite (filter_cons _ y), IH, (filter_cons _ y).
      destruct (decide (P x)), (decide (P y)); try done.
      simpl. by rewrite (proj2 (Z.leb_gt _ _) Hlt).
Qed.

(** Filtering a list sorted by [sortBy] is sorting the filtered list. *)
Lemma filter_sortBy {A} (f : A → Z) (P : A → Prop) `{∀ a, Decision (P a)} l :
  filter P (sortBy f l) = sortBy f (filter P l).
Proof.
  induction l as [|x l IH]; [done|].
  simpl. rewrite filter_sortBy_insert by apply sortBy_sorted.
  rewrite filter_cons, IH. by case_decide.
Qed.

Lemma _build_exclude g note exclude path :
  _build g note exclude path =
    filter (λ e, rank_note e ∉ exclude) (_build g note [] path).
Proof.
  rewrite !_build_eq. destruct (path <$> _map g !! note) as [pd|]; [|done].
  rewrite filter_sortBy, filter_fmap. do 2 f_equal.
  rewrite (filter_all (λ r, ref_node r ∉ [])); [done|].
  apply Forall_forall. intros r _. apply not_elem_of_nil.
Qed.

(** X10.  Exclusion only removes entries.  [getNotePaths(note, exclude)] is
    [getNotePaths(note)] without the entries whose note is in [exclude], the
    others in the order they had. *)
Theorem getNotePaths_exclude_filters g note exclude :
  paths_in (getNotePaths g note exclude) =
    filter (λ e, rank_note e ∉ exclude) (paths_in (getNotePaths g note [])) ∧
  paths_out (getNotePaths g note exclude) =
    filter (λ e, rank_note e ∉ exclude) (paths_out (getNotePaths g note [])).
Proof. split; apply _build_exclude. Qed.

Lemma elem_of__build g note exclude path e :
  (∀ n j r, _map g !! note = Some n → path n !! j = Some r → ref_node r = j) →
  e ∈ _build g note exclude path ↔
  (rank_note e ∉ exclude) ∧
  ref_count <$> path (node_at g note) !! rank_note e = Some (rank_count e) ∧
  is_Some (_map g !! note).
Proof.
  intros Hkeyed. rewrite _build_eq. unfold node_at.
  destruct (_map g !! note) as [n|] eqn:Hn; simpl.
  - rewrite sortBy_Permutation, list_elem_of_fmap. split.
    + intros (r & -> & [Hr (j & Hj)%elem_of_js_values]%list_elem_of_filter).
      simpl. rewrite (Hkeyed n j r eq_refl Hj), Hj.
      rewrite (Hkeyed n j r eq_refl Hj) in Hr. eauto.
    + intros (Hex & Hr & _).
      destruct (path n !! rank_note e) as [r|] eqn:Hj; [|done].
      injection Hr as Hr. pose proof (Hkeyed n _ r eq_refl Hj) as Hnode.
      exists r. split.
      * destruct e. unfold ranked_reference. simpl in *. congruence.
      * apply list_elem_of_filter. split; [congruence|].
        apply elem_of_js_values. eauto.
  - split; [by intros ?%elem_of_nil|]. by intros (_ & _ & [? ?]).
Qed.

Lemma elem_of_paths_out name ss x exclude e :
  e ∈ paths_out (getNotePaths (ingest name ss) x exclude) ↔
  (rank_note e ∉ exclude) ∧
  out_count (ingest name ss) x (rank_note e) = Some (rank_count e).
Proof.
  unfold getNotePaths, out_count. simpl. rewrite elem_of__build.
  - split; [by intros (? & ? & _)|]. intros [Hex Hr]. split_and!; [done..|].
    unfold node_at in Hr.
    destruct (_map (ingest name ss) !! x); [by eexists|].
    simpl in Hr. by rewrite lookup_empty in Hr.
  - intros n j r Hn Hr. pose proof (refs_keyed_ingest name ss x j r) as Hk.
    rewrite (node_at_lookup _ _ _ Hn) in Hk. auto.
Qed.

Lemma elem_of_paths_in name ss y exclude e :
  e ∈ paths_in (getNotePaths (ingest name ss) y exclude) ↔
  (rank_note e ∉ exclude) ∧
  in_count (ingest name ss) y (rank_note e) = Some (rank_count e).
Proof.
  unfold getNotePaths, in_count. simpl. rewrite elem_of__build.
  - split; [by intros (? & ? & _)|]. intros [Hex Hr]. split_and!; [done..|].
    unfold node_at in Hr.
    destruct (_map (ingest name ss) !! y); [by eexists|].
    simpl in Hr. by rewrite lookup_empty in Hr.
  - intros n j r Hn Hr. pose proof (refs_keyed_ingest name ss y j r) as Hk.
    rewrite (node_at_lookup _ _ _ Hn) in Hk. auto.
Qed.

(** X11.  The two views of an edge agree: [y] is listed with count [c] among the
    outgoing paths of [x] exactly when [x] is listed with count [c] among the
    incoming paths of [y]. *)
Theorem getNotePaths_views_agree name ss x y c :
  {| rank_count := c; rank_note := y |}
    ∈ paths_out (getNotePaths (ingest name ss) x []) ↔
  {| rank_count := c; rank_note := x |}
    ∈ paths_in (getNotePaths (ingest name ss) y []).
Proof.
  rewrite elem_of_paths_out, elem_of_paths_in. simpl.
  destruct (graph_symmetric_ingest name ss) as [_ Hsym]. rewrite Hsym.
  pose proof (not_elem_of_nil x). pose proof (not_elem_of_nil y). tauto.
Qed.

Lemma edge_entry_Some t c : edge_entry t = Some c ↔ c ≠ 0%nat ∧ c = t.
Proof.
  unfold edge_entry. case_decide as Ht.
  - split; [done|]. intros [? ?]. congruence.
  - split; [intros [= <-]; done|]. by intros [_ ->].
Qed.

Lemma NoDup_rank_note (l : list RankedNoteElement) (count_of : N → option nat) :
  NoDup l →
  (∀ e, e ∈ l → count_of (rank_note e) = Some (rank_count e)) →
  NoDup (rank_note <$> l).
Proof.
  intros Hnd Hcount. apply NoDup_fmap_2_strong; [|done].
  intros [c1 n1] [c2 n2] H1 H2. simpl. intros <-.
  apply Hcount in H1, H2. simpl in *. congruence.
Qed.

Lemma NoDup__build g note exclude path :
  (∀ n j r, _map g !! note = Some n → path n !! j = Some r → ref_node r = j) →
  NoDup (_build g note exclude path).
Proof.
  intros Hkeyed. rewrite _build_eq.
  destruct (_map g !! note) as [n|] eqn:Hn; simpl; [|constructor].
  rewrite sortBy_Permutation.
  apply NoDup_fmap_2_strong.
  - intros r1 r2 [_ (j1 & Hj1)%elem_of_js_values]%list_elem_of_filter
      [_ (j2 & Hj2)%elem_of_js_values]%list_elem_of_filter Heq.
    pose proof (Hkeyed n j1 r1 eq_refl Hj1).
    pose proof (Hkeyed n j2 r2 eq_refl Hj2).
    assert (j1 = j2) as -> by (injection Heq; congruence).
    congruence.
  - apply NoDup_filter. unfold js_values.
    apply NoDup_fmap_2_strong.
    + intros [j1 r1] [j2 r2] H1 H2. simpl. intros <-.
      rewrite js_entries_Permutation in H1, H2.
      apply elem_of_map_to_list in H1, H2.
      f_equal. rewrite <-(Hkeyed n j1 r1 eq_refl H1).
      by rewrite <-(Hkeyed n j2 r1 eq_refl H2).
    + rewrite js_entries_Permutation. apply NoDup_map_to_list.
Qed.

(** X9.  What [getNotePaths] lists, in terms of what was ingested.  A note [y] not
    in [exclude] is listed among the outgoing paths of [x] when an onset of
    [y] directly followed an onset of [x] within an ingested sequence, once,
    with the number of times that happened; the incoming paths list the
    notes that [x] directly followed, likewise. *)
Theorem getNotePaths_entries name ss x exclude :
  let paths := getNotePaths (ingest name ss) x exclude in
  NoDup (rank_note <$> paths_out paths) ∧
  NoDup (rank_note <$> paths_in paths) ∧
  (∀ e, e ∈ paths_out paths ↔
        (rank_note e ∉ exclude) ∧ rank_count e ≠ 0%nat ∧
        rank_count e = transitions ss x (rank_note e)) ∧
  (∀ e, e ∈ paths_in paths ↔
        (rank_note e ∉ exclude) ∧ rank_count e ≠ 0%nat ∧
        rank_count e = transitions ss (rank_note e) x).
Proof.
  intros paths.
  assert (∀ path, path = pathsIn ∨ path = pathsOut →
    ∀ n j r, _map (ingest name ss) !! x = Some n →
             path n !! j = Some r → ref_node r = j) as Hkeyed.
  { intros path Hpath n j r Hn Hr.
    pose proof (refs_keyed_ingest name ss x j r) as Hk.
    rewrite (node_at_lookup _ _ _ Hn) in Hk.
    destruct Hpath as [-> | ->]; auto. }
  split_and!.
  - apply (NoDup_rank_note _ (out_count (ingest name ss) x)).
    + apply NoDup__build, Hkeyed. by right.
    + by intros e [_ He]%elem_of_paths_out.
  - apply (NoDup_rank_note _ (in_count (ingest name ss) x)).
    + apply NoDup__build, Hkeyed. by left.
    + by intros e [_ He]%elem_of_paths_in.
  - intros e. unfold paths. rewrite elem_of_paths_out.
    rewrite (proj1 (edge_counts_ingest name ss x (rank_note e))).
    by rewrite edge_entry_Some.
  - intros e. unfold paths. rewrite elem_of_paths_in.
    rewrite (proj2 (edge_counts_ingest name ss (rank_note e) x)).
    by rewrite edge_entry_Some.
Qed.

Lemma getAllNotes_count name ss e :
  e ∈ getAllNotes (ingest name ss) →
  count (node_at (ingest name ss) (rank_note e)) = rank_count e.
Proof.
  intros (k & n & Hn & ->)%elem_of_getAllNotes. simpl.
  rewrite (notes_keyed_ingest name ss k n Hn).
  by rewrite (node_at_lookup _ _ _ Hn).
Qed.

(** X8.  What [getAllNotes] lists, in terms of what was ingested: one entry for
    each note that a note-on event carried, and none else, with the number of
    note-on events that carried it. *)
Theorem getAllNotes_entries name ss :
  NoDup (rank_note <$> getAllNotes (ingest name ss)) ∧
  ∀ e, e ∈ getAllNotes (ingest name ss) ↔
       rank_note e ∈ noteNumber <$> noteOnEvents ss ∧
       rank_count e =
         length (filter (λ event, noteNumber event = rank_note e)
                   (noteOnEvents ss)).
Proof.
  split.
  - apply (NoDup_rank_note _
             (λ k, Some (count (node_at (ingest name ss) k)))).
    + eapply StronglySorted_NoDup;
        [|apply getAllNotes_sorted, notes_keyed_ingest].
      intros x Hx. by apply (rank_before_asym x x).
    + intros e He. f_equal. by apply getAllNotes_count.
  - intros e. rewrite elem_of_getAllNotes_log, insert_log_ingest.
    by rewrite filter_fmap_length.
Qed.

Lemma stdlib_filter_elem_of {A} (f : A → bool) (l : list A) x :
  x ∈ List.filter f l ↔ x ∈ l ∧ f x = true.
Proof. rewrite !list_elem_of_In. apply filter_In. Qed.

Lemma head_drop {A} (l : list A) i : head (drop i l) = l !! i.
Proof. by rewrite head_lookup, lookup_drop, Nat.add_0_r. Qed.

(** X12.  [getSequencesForNote] returns, and returns one entry for each note-on
    event ingested with that note: as many entries as [getAllNotes] counts
    for the note, none for a note that was never ingested. *)
Theorem getSequencesForNote_entries name ss note partial :
  ∃ l, getSequencesForNote (ingest name ss) note partial = Some l ∧
       length l = count (node_at (ingest name ss) note) ∧
       length l =
         length (filter (λ event, noteNumber event = note) (noteOnEvents ss)).
Proof.
  destruct (getSequencesForNote_total name ss note partial) as [l Hl].
  exists l. split; [done|].
  rewrite getSequencesForNote_node_at in Hl.
  apply mapM_Some, Forall2_length in Hl.
  rewrite <-(count_ingest name), count_is_sequences_length. by split.
Qed.

(** X13.  A partial result starts at the note asked for.  When the offsets
    and durations ingested are integers below 2^51 in magnitude, every result
    of [getSequencesForNote({note, partial: true})] comes from an ingested
    sequence: its events are a final part of the note-on events of that
    sequence and begin with a note-on event of [note], and its duration is the
    duration of the sequence less the offset of that event from the first
    note-on event; that difference of offsets and the duration stay below
    2^53 in magnitude, so the two subtractions are exact in doubles. *)
Theorem partial_results_start_at_note name ss note l r :
  Forall exact_times ss →
  getSequencesForNote (ingest name ss) note true = Some l → r ∈ l →
  ∃ s matched first,
    s ∈ ss ∧
    head (events r) = Some matched ∧
    noteNumber matched = note ∧ subtype matched = noteOn ∧
    events r `suffix_of` List.filter is_noteOn (events s) ∧
    head (List.filter is_noteOn (events s)) = Some first ∧
    duration r = duration s - (offset matched - offset first) ∧
    Z.abs (offset matched - offset first) < 2 ^ 53 ∧
    Z.abs (duration r) < 2 ^ 53.
Proof.
  intros Hexact Hl Hr.
  rewrite getSequencesForNote_node_at, sequences_ingest in Hl.
  apply mapM_Some in Hl. apply list_elem_of_lookup in Hr as [i Hi].
  destruct (Forall2_lookup_r _ _ _ _ _ Hl Hi) as (el & Hel & Hf).
  apply list_elem_of_lookup_2, list_elem_of_bind in Hel as (s & Hel & Hs).
  apply occurrences_spec in Hel as (Hseq & matched & Hm & Hnote).
  unfold sequenceForElement in Hf. cbn [negb] in Hf.
  rewrite Hseq, Hm in Hf. cbn [mbind option_bind] in Hf.
  destruct (events (noteOnSequence s) !! 0%nat) as [first|] eqn:Hfirst;
    [|done].
  simpl in Hf. injection Hf as <-.
  rewrite Forall_forall in Hexact.
  destruct (Hexact s Hs) as [Hduration Hoffsets].
  rewrite Forall_forall in Hoffsets.
  assert (exact_time (offset matched) ∧ exact_time (offset first))
    as [Hmatched Hfirst'].
  { split; apply Hoffsets.
    - by apply list_elem_of_lookup_2, stdlib_filter_elem_of in Hm as [? _].
    - by apply list_elem_of_lookup_2, stdlib_filter_elem_of in Hfirst
        as [? _]. }
  unfold exact_time in *.
  assert (2 ^ 53 = 4 * 2 ^ 51) as Hpow by reflexivity.
  exists s, matched, first. simpl. split_and!; try done.
  - by rewrite head_drop.
  - apply list_elem_of_lookup_2, stdlib_filter_elem_of in Hm as [_ Hm].
    unfold is_noteOn in Hm. by apply bool_decide_eq_true in Hm.
  - apply suffix_drop.
  - by rewrite head_lookup.
  - lia.
  - lia.
Qed.

(** * Further properties of the traversal *)

Lemma offered_not_excluded g note exclude e :
  e ∈ paths_in (getNotePaths g note exclude) ∨
  e ∈ paths_out (getNotePaths g note exclude) →
  (rank_note e ∉ exclude) ∧ listed_neighbour g note (rank_note e).
Proof.
  unfold listed_neighbour, getNotePaths. simpl.
  rewrite !(_build_exclude g note exclude), !list_elem_of_filter. intros [[Hex He]|[Hex He]].
  - split; [done|]. exists e. auto.
  - split; [done|]. exists e. auto.
Qed.

Section traverse_walk.
Variables DisallowReuse ResetAfterExhaust : Z.
Context {σ : Type}.
Variable g : RankedSequenceGraph.
Variable p : TraverseGraphParam σ.

(** One nested call of [_push] that visits a note: what it returns, from
    what the policy answered. *)
Lemma _push_visit fuel e index exclude s notes s' :
  index ≠ maxCount p →
  _push DisallowReuse ResetAfterExhaust g p fuel (Some e) index exclude s =
    Some (notes, s') →
  ∃ fuel' exclude' chosen s1 rest,
    fuel = S fuel' ∧ notes = rank_note e :: rest ∧
    _push DisallowReuse ResetAfterExhaust g p fuel' chosen (index + 1)
      exclude' s1 = Some (rest, s') ∧
    (∀ c, chosen = Some c →
          ∃ s0, (next p (mkNextParam (rank_note e)
                           (getNotePaths g (rank_note e) exclude')) s0).1
                = Some c) ∧
    (exclude' = visiting DisallowReuse p exclude (rank_note e) ∨
     (exclude' = [] ∧
      has_attribute (attributes p) ResetAfterExhaust = true)).
Proof.
  intros Hi Hrun. destruct fuel as [|fuel']; simpl in Hrun.
  { by rewrite (proj2 (Z.eqb_neq _ _) Hi) in Hrun. }
  rewrite (proj2 (Z.eqb_neq _ _) Hi) in Hrun.
  fold (visiting DisallowReuse p exclude (rank_note e)) in Hrun.
  destruct (next p _ s) as [[chosen|] s1] eqn:Hask.
  - destruct (_push _ _ _ _ fuel' (Some chosen) _ _ s1)
      as [[rest s2]|] eqn:Hrest; [|done].
    injection Hrun as <- <-.
    exists fuel', (visiting DisallowReuse p exclude (rank_note e)),
      (Some chosen), s1, rest.
    split_and!; [done..| |by left].
    intros c [= <-]. exists s. by rewrite Hask.
  - destruct (has_attribute (attributes p) ResetAfterExhaust) eqn:Hreset.
    + destruct (next p _ s1) as [again s2] eqn:Hagain.
      destruct (_push _ _ _ _ fuel' again _ _ s2)
        as [[rest s3]|] eqn:Hrest; [|done].
      injection Hrun as <- <-.
      exists fuel', [], again, s2, rest.
      split_and!; [done..| |by right].
      intros c ->. exists s1. by rewrite Hagain.
    + destruct (_push _ _ _ _ fuel' None _ _ s1)
        as [[rest s3]|] eqn:Hrest; [|done].
      injection Hrun as <- <-.
      exists fuel', (visiting DisallowReuse p exclude (rank_note e)),
        None, s1, rest.
      split_and!; [done..| |by left]. by intros c [=].
Qed.

Lemma _push_nil fuel noteElement index exclude s notes s' :
  noteElement = None ∨ index = maxCount p →
  _push DisallowReuse ResetAfterExhaust g p fuel noteElement index exclude s =
    Some (notes, s') →
  notes = [].
Proof.
  intros [-> | ->].
  - rewrite _push_undefined. by intros [= <- _].
  - rewrite _push_maxCount. by intros [= <- _].
Qed.

(** The walk begins at the element it is given. *)
Lemma _push_head fuel e index exclude s notes s' :
  index ≠ maxCount p →
  _push DisallowReuse ResetAfterExhaust g p fuel (Some e) index exclude s =
    Some (notes, s') →
  head notes = Some (rank_note e).
Proof.
  intros Hi Hrun.
  destruct (_push_visit _ _ _ _ _ _ _ Hi Hrun)
    as (? & ? & ? & ? & ? & _ & -> & _). done.
Qed.

Lemma _push_follows_edges fuel noteElement index exclude s notes s' :
  from_offer (next p) →
  _push DisallowReuse ResetAfterExhaust g p fuel noteElement index exclude s =
    Some (notes, s') →
  follows_edges g notes.
Proof.
  intros Hoffer. unfold follows_edges.
  revert noteElement index exclude s notes s'.
  induction fuel as [|fuel IH]; intros noteElement index exclude s notes s' Hrun.
  - destruct noteElement as [e|], (decide (index = maxCount p)) as [Hi|Hi];
      try (apply _push_nil in Hrun as ->; [by intros i a b ?|solve [auto]]).
    by destruct (_push_visit _ _ _ _ _ _ _ Hi Hrun) as (? & ? & ? & ? & ? & ? & _).
  - destruct noteElement as [e|], (decide (index = maxCount p)) as [Hi|Hi];
      try (apply _push_nil in Hrun as ->; [by intros i a b ?|solve [auto]]).
    destruct (_push_visit _ _ _ _ _ _ _ Hi Hrun)
      as (fuel' & exclude' & chosen & s1 & rest & [= <-] & -> & Hrest &
          Hchosen & _).
    pose proof (IH _ _ _ _ _ _ Hrest) as Hedges.
    intros [|i] a b Ha Hb; simpl in Ha, Hb; [|by eapply Hedges].
    injection Ha as <-.
    destruct chosen as [c|]; [|by apply _push_nil in Hrest as ->; auto].
    destruct (decide (index + 1 = maxCount p)) as [Hi'|Hi'];
      [by apply _push_nil in Hrest as ->; auto|].
    apply _push_head in Hrest; [|done].
    rewrite head_lookup, Hb in Hrest. injection Hrest as ->.
    destruct (Hchosen c eq_refl) as [s0 Hs0].
    apply Hoffer in Hs0. simpl in Hs0.
    by apply offered_not_excluded in Hs0 as [_ ?].
Qed.

Lemma _push_NoDup fuel e index exclude s notes s' :
  from_offer (next p) →
  has_attribute (attributes p) DisallowReuse = true →
  has_attribute (attributes p) ResetAfterExhaust = false →
  rank_note e ∉ exclude →
  _push DisallowReuse ResetAfterExhaust g p fuel (Some e) index exclude s =
    Some (notes, s') →
  NoDup notes ∧ ∀ n, n ∈ notes → n ∉ exclude.
Proof.
  intros Hoffer Hd Hr. revert e index exclude s notes s'.
  induction fuel as [|fuel IH]; intros e index exclude s notes s' He Hrun.
  - destruct (decide (index = maxCount p)) as [Hi|Hi].
    + apply _push_nil in Hrun as ->; [|auto].
      split; [constructor|]. by intros n ?%elem_of_nil.
    + by destruct (_push_visit _ _ _ _ _ _ _ Hi Hrun)
        as (? & ? & ? & ? & ? & ? & _).
  - destruct (decide (index = maxCount p)) as [Hi|Hi].
    + apply _push_nil in Hrun as ->; [|auto].
      split; [constructor|]. by intros n ?%elem_of_nil.
    + destruct (_push_visit _ _ _ _ _ _ _ Hi Hrun)
        as (fuel' & exclude' & chosen & s1 & rest & [= <-] & -> & Hrest &
            Hchosen & Hexclude).
      destruct Hexclude as [->|[_ Hreset]]; [|congruence].
      unfold visiting in *. rewrite Hd in *.
      destruct chosen as [c|].
      * destruct (Hchosen c eq_refl) as [s0 Hs0].
        apply Hoffer in Hs0. simpl in Hs0.
        apply offered_not_excluded in Hs0 as [Hc _].
        destruct (IH _ _ _ _ _ _ Hc Hrest) as [Hnd Hout].
        split.
        -- constructor; [|done]. intros Hin. apply (Hout _ Hin).
           apply elem_of_app. right. by apply list_elem_of_singleton.
        -- intros n [->|Hn]%elem_of_cons; [done|].
           intros Hin. apply (Hout _ Hn). apply elem_of_app. by left.
      * apply _push_nil in Hrest as ->; [|auto].
        split; [apply NoDup_singleton|].
        by intros n ->%list_elem_of_singleton.
Qed.
End traverse_walk.

Section traverse_calls.
Variables DisallowReuse ResetAfterExhaust : Z.
Context {σ : Type}.
Variable g : RankedSequenceGraph.
Variable p : TraverseGraphParam σ.

(** A run with the recording policy is the run with the policy itself, and
    records one call for each note returned, or two where the exclusion list
    was cleared. *)
Lemma _push_logged fuel noteElement index exclude s log notes s' log' :
  _push DisallowReuse ResetAfterExhaust g (with_logged_next p) fuel
    noteElement index exclude (s, log) = Some (notes, (s', log')) →
  _push DisallowReuse ResetAfterExhaust g p fuel noteElement index exclude s
    = Some (notes, s') ∧
  ∃ calls,
    log' = log ++ calls ∧
    (length notes ≤ length calls ≤ 2 * length notes)%nat ∧
    Forall (λ call, next_note call ∈ notes) calls ∧
    (has_attribute (attributes p) ResetAfterExhaust = false →
     next_note <$> calls = notes).
Proof.
  revert noteElement index exclude s log notes s' log'.
  induction fuel as [|fuel IH];
    intros noteElement index exclude s log notes s' log' Hrun.
  - simpl in *. destruct noteElement as [e|];
      [destruct (index =? maxCount p); [|done]|];
      injection Hrun as <- <- <-; (split; [done|]); exists [];
      rewrite app_nil_r; simpl; split_and!; (done || lia || constructor).
  - simpl in *. destruct noteElement as [e|].
    2:{ injection Hrun as <- <- <-. split; [done|]. exists [].
        rewrite app_nil_r. simpl. split_and!; (done || lia || constructor). }
    destruct (index =? maxCount p).
    { injection Hrun as <- <- <-. split; [done|]. exists [].
      rewrite app_nil_r. simpl. split_and!; (done || lia || constructor). }
    unfold logged in Hrun at 1. simpl in Hrun.
    destruct (next p _ s) as [[chosen|] s1].
    + destruct (_push _ _ _ (with_logged_next p) fuel _ _ _ _)
        as [[rest [s2 log2]]|] eqn:Hrest; [|done].
      injection Hrun as <- <- <-.
      destruct (IH _ _ _ _ _ _ _ _ Hrest)
        as (-> & calls & -> & Hlen & Hin & Hnotes).
      split; [done|]. eexists (_ :: calls).
      rewrite <-app_assoc. simpl. split_and!; [done|lia|lia| |].
      * constructor; [simpl; by left|].
        eapply Forall_impl; [done|]. intros. by right.
      * intros Hr. f_equal. exact (Hnotes Hr).
    + destruct (has_attribute (attributes p) ResetAfterExhaust).
      * unfold logged in Hrun at 1. simpl in Hrun.
        destruct (next p _ s1) as [again s2].
        destruct (_push _ _ _ (with_logged_next p) fuel _ _ _ _)
          as [[rest [s3 log3]]|] eqn:Hrest; [|done].
        injection Hrun as <- <- <-.
        destruct (IH _ _ _ _ _ _ _ _ Hrest)
          as (-> & calls & -> & Hlen & Hin & Hnotes).
        split; [done|]. eexists (_ :: _ :: calls).
        rewrite <-!app_assoc. simpl. split_and!; [done|lia|lia| |done].
        do 2 (constructor; [simpl; by left|]).
        eapply Forall_impl; [done|]. intros. by right.
      * destruct (_push _ _ _ (with_logged_next p) fuel _ _ _ _)
          as [[rest [s3 log3]]|] eqn:Hrest; [|done].
        injection Hrun as <- <- <-.
        destruct (IH _ _ _ _ _ _ _ _ Hrest)
          as (-> & calls & -> & Hlen & Hin & Hnotes).
        split; [done|]. eexists (_ :: calls).
        rewrite <-app_assoc. simpl. split_and!; [done|lia|lia| |].
        -- constructor; [simpl; by left|].
           eapply Forall_impl; [done|]. intros. by right.
        -- intros Hr. f_equal. exact (Hnotes Hr).
Qed.
(** The calls recorded during a walk, visit by visit. *)
Lemma _push_call_groups fuel noteElement index exclude s log notes s' log' :
  _push DisallowReuse ResetAfterExhaust g (with_logged_next p) fuel
    noteElement index exclude (s, log) = Some (notes, (s', log')) →
  ∃ groups,
    log' = log ++ concat groups ∧
    Forall2
      (visit_calls g (has_attribute (attributes p) ResetAfterExhaust))
      notes groups.
Proof.
  revert noteElement index exclude s log notes s' log'.
  induction fuel as [|fuel IH];
    intros noteElement index exclude s log notes s' log' Hrun.
  - simpl in *. destruct noteElement as [e|];
      [destruct (index =? maxCount p); [|done]|];
      injection Hrun as <- <- <-; exists [];
      simpl; rewrite app_nil_r; (split; [done|constructor]).
  - simpl in *. destruct noteElement as [e|].
    2:{ injection Hrun as <- <- <-. exists []. simpl. rewrite app_nil_r.
        split; [done|constructor]. }
    destruct (index =? maxCount p).
    { injection Hrun as <- <- <-. exists []. simpl. rewrite app_nil_r.
      split; [done|constructor]. }
    unfold logged in Hrun at 1. simpl in Hrun.
    destruct (next p _ s) as [[chosen|] s1].
    + destruct (_push _ _ _ (with_logged_next p) fuel _ _ _ _)
        as [[rest [s2 log2]]|] eqn:Hrest; [|done].
      injection Hrun as <- <- <-.
      destruct (IH _ _ _ _ _ _ _ _ Hrest) as (groups & -> & Hgroups).
      eexists ([_] :: groups). simpl. rewrite <-app_assoc. simpl.
      split; [done|]. constructor; [|done]. eexists. by left.
    + destruct (has_attribute (attributes p) ResetAfterExhaust) eqn:Hreset.
      * unfold logged in Hrun at 1. simpl in Hrun.
        destruct (next p _ s1) as [again s2].
        destruct (_push _ _ _ (with_logged_next p) fuel _ _ _ _)
          as [[rest [s3 log3]]|] eqn:Hrest; [|done].
        injection Hrun as <- <- <-.
        destruct (IH _ _ _ _ _ _ _ _ Hrest) as (groups & -> & Hgroups).
        eexists ([_; _] :: groups). simpl. rewrite <-!app_assoc. simpl.
        split; [done|]. constructor; [|done]. eexists. by right.
      * destruct (_push _ _ _ (with_logged_next p) fuel _ _ _ _)
          as [[rest [s3 log3]]|] eqn:Hrest; [|done].
        injection Hrun as <- <- <-.
        destruct (IH _ _ _ _ _ _ _ _ Hrest) as (groups & -> & Hgroups).
        eexists ([_] :: groups). simpl. rewrite <-app_assoc. simpl.
        split; [done|]. constructor; [|done]. eexists. by left.
Qed.
End traverse_calls.

(** X15.  When [startNote] has a node and [maxCount] is not 0, the list that
    [traverse] returns begins with [startNote]. *)
Theorem traverse_starts_at_startNote DisallowReuse ResetAfterExhaust {σ}
    name ss (p : TraverseGraphParam σ) fuel s notes s' :
  is_Some (_map (ingest name ss) !! startNote p) → maxCount p ≠ 0 →
  traverse DisallowReuse ResetAfterExhaust (ingest name ss) p fuel s =
    Some (notes, s') →
  head notes = Some (startNote p).
Proof.
  intros [n Hn] Hmax. unfold traverse, startElement. rewrite Hn. simpl.
  intros Hrun. apply _push_head in Hrun; [|congruence].
  simpl in Hrun. by rewrite (notes_keyed_ingest name ss _ n Hn) in Hrun.
Qed.

(** X16.  With [DisallowReuse] and without [ResetAfterExhaust], and a policy that
    chooses among the entries it is offered, no note is returned twice. *)
Theorem traverse_never_revisits DisallowReuse ResetAfterExhaust {σ}
    g (p : TraverseGraphParam σ) fuel s notes s' :
  from_offer (next p) →
  has_attribute (attributes p) DisallowReuse = true →
  has_attribute (attributes p) ResetAfterExhaust = false →
  traverse DisallowReuse ResetAfterExhaust g p fuel s = Some (notes, s') →
  NoDup notes.
Proof.
  intros Hoffer Hd Hr. unfold traverse.
  destruct (startElement g p) as [e|].
  - intros Hrun. eapply _push_NoDup in Hrun as [Hnd _]; try done.
    apply not_elem_of_nil.
  - rewrite _push_undefined. intros [= <- _]. constructor.
Qed.

(** X17.  With a policy that chooses among the entries it is offered, the walk
    follows what was ingested: of two notes returned one after the other, one
    directly followed the other in an ingested sequence. *)
Theorem traverse_follows_transitions DisallowReuse ResetAfterExhaust {σ}
    name ss (p : TraverseGraphParam σ) fuel s notes s' i a b :
  from_offer (next p) →
  traverse DisallowReuse ResetAfterExhaust (ingest name ss) p fuel s =
    Some (notes, s') →
  notes !! i = Some a → notes !! S i = Some b →
  transitions ss a b ≠ 0%nat ∨ transitions ss b a ≠ 0%nat.
Proof.
  intros Hoffer Hrun Ha Hb. unfold traverse in Hrun.
  destruct (_push_follows_edges _ _ _ _ _ _ _ _ _ _ _ Hoffer Hrun i a b Ha Hb)
    as (e & <- & [He|He]).
  - right. apply elem_of_paths_in in He as [_ He].
    rewrite (proj2 (edge_counts_ingest name ss (rank_note e) a)) in He.
    by apply edge_entry_Some in He as [? <-].
  - left. apply elem_of_paths_out in He as [_ He].
    rewrite (proj1 (edge_counts_ingest name ss a (rank_note e))) in He.
    by apply edge_entry_Some in He as [? <-].
Qed.

(** X18.  The policy is called for the notes returned and for no other.
    The calls are, for each note returned in turn, one call for that note,
    or, with [ResetAfterExhaust], one call and a second one for the same
    note with nothing excluded.  Without [ResetAfterExhaust] that is one
    call for each note returned, in order.  Recording the calls does not
    change the walk. *)
Theorem traverse_policy_calls DisallowReuse ResetAfterExhaust {σ}
    g (p : TraverseGraphParam σ) fuel s notes s' calls :
  traverse DisallowReuse ResetAfterExhaust g (with_logged_next p) fuel (s, [])
    = Some (notes, (s', calls)) →
  traverse DisallowReuse ResetAfterExhaust g p fuel s = Some (notes, s') ∧
  (∃ groups,
     calls = concat groups ∧
     Forall2
       (visit_calls g (has_attribute (attributes p) ResetAfterExhaust))
       notes groups) ∧
  (length notes ≤ length calls ≤ 2 * length notes)%nat ∧
  Forall (λ call, next_note call ∈ notes) calls ∧
  (has_attribute (attributes p) ResetAfterExhaust = false →
   next_note <$> calls = notes).
Proof.
  unfold traverse. intros Hrun.
  change (startElement g (with_logged_next p)) with (startElement g p) in Hrun.
  pose proof (_push_call_groups _ _ _ _ _ _ _ _ _ _ _ _ _ Hrun)
    as (groups & Hgroups & Hvisits).
  apply _push_logged in Hrun as (Hplain & calls' & Hcalls & Hrest).
  simpl in Hcalls, Hgroups. subst calls'.
  split; [done|]. split; [|done]. by exists groups.
Qed.

(** * Properties of MidiSong *)

Lemma _max_foldl (array : list Z) (computed : option Z) :
  let f := λ computed current,
             match computed with
             | None => Some current
             | Some c => if current >? c then Some current else computed
             end in
  match foldl f computed array with
  | None => computed = None ∧ array = []
  | Some m =>
      (computed = Some m ∨ m ∈ array) ∧
      (∀ c, computed = Some c → c ≤ m) ∧
      Forall (λ x, x ≤ m) array
  end.
Proof.
  intros f. revert computed.
  induction array as [|x array IH]; intros computed; simpl.
  - destruct computed as [c|]; [|done]. split_and!; [by left| |constructor].
    by intros ? [= <-].
  - specialize (IH (f computed x)).
    destruct (foldl f (f computed x) array) as [m|].
    + destruct IH as (Hm & Hc & Hall).
      assert (x ≤ m ∧ ∀ c, computed = Some c → c ≤ m) as [Hx Hc'].
      { destruct computed as [c|]; simpl in *.
        - destruct (Z.gtb_spec x c).
          + specialize (Hc x eq_refl). split; [done|]. intros ? [= <-]. lia.
          + specialize (Hc c eq_refl). split; [lia|]. by intros ? [= <-].
        - specialize (Hc x eq_refl). split; [done|]. by intros ? [=]. }
      split_and!; [|done|by constructor].
      destruct Hm as [Hm|Hm]; [|right; by right].
      destruct computed as [c|]; simpl in Hm.
      * destruct (x >? c); [|by left].
        injection Hm as ->. right. apply elem_of_cons. by left.
      * injection Hm as ->. right. apply elem_of_cons. by left.
    + destruct IH as [Hnone _]. destruct computed as [c|]; simpl in Hnone.
      * by destruct (x >? c).
      * done.
Qed.

(** X21.  The duration of a song is the largest duration of its tracks'
    sequences: there is none ([undefined]) for a song without tracks, and
    otherwise it is the duration of one of the tracks and no track has a
    larger one. *)
Theorem song_duration_is_max {MidiHeader MidiTrack : Type}
    (track_sequence : MidiTrack → MidiSequence)
    (song : MidiSong MidiHeader MidiTrack) :
  match song_duration track_sequence song with
  | None => tracks song = []
  | Some d =>
      (∃ track, track ∈ tracks song ∧ duration (track_sequence track) = d) ∧
      (∀ track, track ∈ tracks song → duration (track_sequence track) ≤ d)
  end.
Proof.
  unfold song_duration, _max.
  pose proof (_max_foldl
    ((λ track, duration (track_sequence track)) <$> tracks song) None) as H.
  simpl in H.
  destruct (foldl _ None _) as [d|].
  - destruct H as ([[=]|Hd] & _ & Hall). split.
    + apply list_elem_of_fmap in Hd as (track & -> & Ht). eauto.
    + intros track Ht. rewrite Forall_forall in Hall. apply Hall.
      apply list_elem_of_fmap. eauto.
  - destruct H as [_ H]. by apply fmap_nil_inv in H.
Qed.

(** X1.  [getInsertSequence] returns the note numbers of the ingested note-on
    events, in the order of the [addSequence] calls and, within a call, of
    the events. *)
Theorem insertion_log_of_onsets name ss :
  getInsertSequence (ingest name ss) = noteNumber <$> noteOnEvents ss.
Proof. apply insert_log_ingest. Qed.

(** X2.  A note has a node exactly when a note-on event carried it; the node is
    filed under that note, and its count is the number of those events and
    the length of its sequence index. *)
Theorem nodes_of_ingested_notes name ss k :
  (is_Some (_map (ingest name ss) !! k) ↔
   k ∈ noteNumber <$> noteOnEvents ss) ∧
  note (node_at (ingest name ss) k) = k ∧
  count (node_at (ingest name ss) k) =
    length (filter (λ event, noteNumber event = k) (noteOnEvents ss)) ∧
  count (node_at (ingest name ss) k) =
    length (sequences (node_at (ingest name ss) k)).
Proof.
  split_and!.
  - apply present_ingest.
  - apply node_at_note, notes_keyed_ingest.
  - apply count_ingest.
  - apply count_is_sequences_length.
Qed.

Lemma topOut_from_offer : from_offer topOut.
Proof.
  intros param s chosen. unfold topOut. simpl.
  intros Hhead%head_Some_elem_of. by right.
Qed.

Lemma addSequence_only_grows_witness :
  _map (ingest "song" [phraseSequence]) !! 60%N =
    Some (node_at (ingest "song" [phraseSequence]) 60) ∧
  ∃ n', _map (addSequence (ingest "song" [phraseSequence]) onsetSequence)
          !! 60%N = Some n' ∧
        note n' = note (node_at (ingest "song" [phraseSequence]) 60) ∧
        (count (node_at (ingest "song" [phraseSequence]) 60) ≤ count n')%nat ∧
        sequences (node_at (ingest "song" [phraseSequence]) 60)
          `prefix_of` sequences n' ∧
        (∀ j r, pathsOut (node_at (ingest "song" [phraseSequence]) 60) !! j
                  = Some r →
                ∃ r', pathsOut n' !! j = Some r' ∧
                      (ref_count r ≤ ref_count r')%nat) ∧
        (∀ j r, pathsIn (node_at (ingest "song" [phraseSequence]) 60) !! j
                  = Some r →
                ∃ r', pathsIn n' !! j = Some r' ∧
                      (ref_count r ≤ ref_count r')%nat).
Proof.
  assert (_map (ingest "song" [phraseSequence]) !! 60%N =
            Some (node_at (ingest "song" [phraseSequence]) 60)) as Hn
    by (vm_compute; reflexivity).
  split; [exact Hn|].
  exact (addSequence_only_grows "song" [phraseSequence] onsetSequence 60 _ Hn).
Defined.

Lemma partial_results_start_at_note_witness :
  Forall exact_times [phraseSequence] ∧
  getSequencesForNote (ingest "song" [phraseSequence]) 62 true =
    Some [{| duration := 20;
             events := [noteOnAt 62 4; noteOnAt 60 8; noteOnAt 64 12;
                        noteOnAt 60 16; noteOnAt 62 20] |};
          {| duration := 4; events := [noteOnAt 62 20] |}] ∧
  ∃ s matched first,
    s ∈ [phraseSequence] ∧
    head (events {| duration := 4; events := [noteOnAt 62 20] |})
      = Some matched ∧
    noteNumber matched = 62%N ∧ subtype matched = noteOn ∧
    events {| duration := 4; events := [noteOnAt 62 20] |}
      `suffix_of` List.filter is_noteOn (events s) ∧
    head (List.filter is_noteOn (events s)) = Some first ∧
    duration {| duration := 4; events := [noteOnAt 62 20] |} =
      duration s - (offset matched - offset first) ∧
    Z.abs (offset matched - offset first) < 2 ^ 53 ∧
    Z.abs (duration {| duration := 4; events := [noteOnAt 62 20] |}) < 2 ^ 53.
Proof.
  assert (Forall exact_times [phraseSequence]) as Hexact
    by (repeat constructor).
  assert (getSequencesForNote (ingest "song" [phraseSequence]) 62 true =
    Some [{| duration := 20;
             events := [noteOnAt 62 4; noteOnAt 60 8; noteOnAt 64 12;
                        noteOnAt 60 16; noteOnAt 62 20] |};
          {| duration := 4; events := [noteOnAt 62 20] |}]) as Hl
    by (vm_compute; reflexivity).
  split; [exact Hexact|]. split; [exact Hl|].
  apply (partial_results_start_at_note "song" [phraseSequence] 62 _ _
           Hexact Hl).
  apply list_elem_of_In. simpl. tauto.
Defined.

Lemma traverse_total_witness :
  0 ≤ maxCount (mkTraverse 3 5 topOut 60%N) ∧
  (Z.to_nat (maxCount (mkTraverse 3 5 topOut 60%N)) ≤ 5)%nat ∧
  ∃ notes s',
    traverse 1 2 (ingest "song" [phraseSequence])
      (mkTraverse 3 5 topOut 60%N) 5 () = Some (notes, s') ∧
    Z.of_nat (length notes) ≤ maxCount (mkTraverse 3 5 topOut 60%N).
Proof.
  assert (0 ≤ maxCount (mkTraverse 3 5 topOut 60%N)) as Hmax by (simpl; lia).
  assert (Z.to_nat (maxCount (mkTraverse 3 5 topOut 60%N)) ≤ 5)%nat as Hfuel
    by (simpl; lia).
  split; [exact Hmax|]. split; [exact Hfuel|].
  exact (traverse_total 1 2 (ingest "song" [phraseSequence])
           (mkTraverse 3 5 topOut 60%N) 5 () Hmax Hfuel).
Defined.

Lemma traverse_starts_at_startNote_witness :
  is_Some (_map (ingest "song" [phraseSequence]) !! 60%N) ∧
  maxCount (mkTraverse 0 3 topOut 60%N) ≠ 0 ∧
  traverse 1 2 (ingest "song" [phraseSequence])
    (mkTraverse 0 3 topOut 60%N) 3 () = Some ([60; 62; 60]%N, ()) ∧
  head [60; 62; 60]%N = Some (startNote (mkTraverse 0 3 topOut 60%N)).
Proof.
  assert (is_Some (_map (ingest "song" [phraseSequence]) !! 60%N)) as Hn
    by (vm_compute; eexists; reflexivity).
  assert (maxCount (mkTraverse 0 3 topOut 60%N) ≠ 0) as Hmax
    by (simpl; lia).
  assert (traverse 1 2 (ingest "song" [phraseSequence])
            (mkTraverse 0 3 topOut 60%N) 3 () = Some ([60; 62; 60]%N, ()))
    as Hrun by (vm_compute; reflexivity).
  split; [exact Hn|]. split; [exact Hmax|]. split; [exact Hrun|].
  exact (traverse_starts_at_startNote 1 2 "song" [phraseSequence]
           (mkTraverse 0 3 topOut 60%N) 3 () _ _ Hn Hmax Hrun).
Defined.

Lemma traverse_never_revisits_witness :
  from_offer topOut ∧
  has_attribute 1 1 = true ∧ has_attribute 1 2 = false ∧
  traverse 1 2 (ingest "song" [phraseSequence])
    (mkTraverse 1 5 topOut 60%N) 5 () = Some ([60; 62]%N, ()) ∧
  NoDup [60; 62]%N.
Proof.
  assert (traverse 1 2 (ingest "song" [phraseSequence])
            (mkTraverse 1 5 topOut 60%N) 5 () = Some ([60; 62]%N, ()))
    as Hrun by (vm_compute; reflexivity).
  split; [apply topOut_from_offer|]. split; [reflexivity|].
  split; [reflexivity|]. split; [exact Hrun|].
  exact (traverse_never_revisits 1 2 (ingest "song" [phraseSequence])
           (mkTraverse 1 5 topOut 60%N) 5 () _ _
           topOut_from_offer eq_refl eq_refl Hrun).
Defined.

Lemma traverse_follows_transitions_witness :
  from_offer topOut ∧
  traverse 1 2 (ingest "song" [phraseSequence])
    (mkTraverse 0 3 topOut 60%N) 3 () = Some ([60; 62; 60]%N, ()) ∧
  [60; 62; 60]%N !! 1%nat = Some 62%N ∧
  [60; 62; 60]%N !! 2%nat = Some 60%N ∧
  (transitions [phraseSequence] 62 60 ≠ 0%nat ∨
   transitions [phraseSequence] 60 62 ≠ 0%nat).
Proof.
  assert (traverse 1 2 (ingest "song" [phraseSequence])
            (mkTraverse 0 3 topOut 60%N) 3 () = Some ([60; 62; 60]%N, ()))
    as Hrun by (vm_compute; reflexivity).
  split; [apply topOut_from_offer|]. split; [exact Hrun|].
  split; [reflexivity|]. split; [reflexivity|].
  exact (traverse_follows_transitions 1 2 "song" [phraseSequence]
           (mkTraverse 0 3 topOut 60%N) 3 () _ _ 1%nat 62%N 60%N
           topOut_from_offer Hrun eq_refl eq_refl).
Defined.

Lemma traverse_policy_calls_witness :
  traverse 1 2 (ingest "song" [onsetSequence])
    (with_logged_next (mkTraverse 3 3 topOut 60%N)) 3 ((), []) =
    Some ([60; 62; 60]%N,
          ((), [mkNextParam 60
                  (getNotePaths (ingest "song" [onsetSequence]) 60 [60%N]);
                mkNextParam 62
                  (getNotePaths (ingest "song" [onsetSequence]) 62
                     [60%N; 62%N]);
                mkNextParam 62
                  (getNotePaths (ingest "song" [onsetSequence]) 62 []);
                mkNextParam 60
                  (getNotePaths (ingest "song" [onsetSequence]) 60 [60%N])]))
  ∧
  traverse 1 2 (ingest "song" [onsetSequence])
    (mkTraverse 3 3 topOut 60%N) 3 () = Some ([60; 62; 60]%N, ()) ∧
  ∃ groups,
    [mkNextParam 60 (getNotePaths (ingest "song" [onsetSequence]) 60 [60%N]);
     mkNextParam 62
       (getNotePaths (ingest "song" [onsetSequence]) 62 [60%N; 62%N]);
     mkNextParam 62 (getNotePaths (ingest "song" [onsetSequence]) 62 []);
     mkNextParam 60 (getNotePaths (ingest "song" [onsetSequence]) 60 [60%N])]
    = concat groups ∧
    Forall2
      (visit_calls (ingest "song" [onsetSequence])
         (has_attribute (attributes (mkTraverse 3 3 topOut 60%N)) 2))
      [60; 62; 60]%N groups.
Proof.
  assert (traverse 1 2 (ingest "song" [onsetSequence])
    (with_logged_next (mkTraverse 3 3 topOut 60%N)) 3 ((), []) =
    Some ([60; 62; 60]%N,
          ((), [mkNextParam 60
                  (getNotePaths (ingest "song" [onsetSequence]) 60 [60%N]);
                mkNextParam 62
                  (getNotePaths (ingest "song" [onsetSequence]) 62
                     [60%N; 62%N]);
                mkNextParam 62
                  (getNotePaths (ingest "song" [onsetSequence]) 62 []);
                mkNextParam 60
                  (getNotePaths (ingest "song" [onsetSequence]) 60 [60%N])])))
    as Hrun by (vm_compute; reflexivity).
  split; [exact Hrun|].
  destruct (traverse_policy_calls 1 2 (ingest "song" [onsetSequence])
              (mkTraverse 3 3 topOut 60%N) 3 () _ _ _ Hrun)
    as (Hplain & Hgroups & _).
  split; [exact Hplain|]. exact Hgroups.
Defined.

Lemma reference_node_note_witness :
  _map (ingest "song" [phraseSequence]) !! 60%N =
    Some (node_at (ingest "song" [phraseSequence]) 60) ∧
  pathsOut (node_at (ingest "song" [phraseSequence]) 60) !! 64%N =
    Some {| ref_count := 1; ref_node := 64 |} ∧
  ∃ nj, _map (ingest "song" [phraseSequence])
          !! ref_node {| ref_count := 1; ref_node := 64 |} = Some nj ∧
        note nj = ref_node {| ref_count := 1; ref_node := 64 |} ∧
        ref_node {| ref_count := 1; ref_node := 64 |} = 64%N.
Proof.
  assert (_map (ingest "song" [phraseSequence]) !! 60%N =
            Some (node_at (ingest "song" [phraseSequence]) 60)) as Hn
    by (vm_compute; reflexivity).
  assert (pathsOut (node_at (ingest "song" [phraseSequence]) 60) !! 64%N =
            Some {| ref_count := 1; ref_node := 64 |}) as Hr
    by (vm_compute; reflexivity).
  split; [exact Hn|]. split; [exact Hr|].
  exact (reference_node_note "song" [phraseSequence] 60 _ 64 _ Hn
           (or_intror Hr)).
Defined.

Lemma count_present name ss x y c :
  out_count (ingest name ss) x y = Some c ∨
  in_count (ingest name ss) x y = Some c →
  is_Some (_map (ingest name ss) !! x) ∧ is_Some (_map (ingest name ss) !! y).
Proof.
  destruct (graph_symmetric_ingest name ss) as [_ Hsym].
  assert (∀ a b c, out_count (ingest name ss) a b = Some c ∨
                   in_count (ingest name ss) a b = Some c →
                   is_Some (_map (ingest name ss) !! a)) as Hone.
  { intros a b c' Hc. unfold out_count, in_count, node_at in Hc.
    destruct (_map (ingest name ss) !! a); [by eexists|].
    simpl in Hc. rewrite !lookup_empty in Hc. by destruct Hc. }
  intros Hc. split; [by eapply Hone|].
  destruct Hc as [Hc|Hc].
  - rewrite Hsym in Hc. eapply Hone. by right.
  - rewrite <-Hsym in Hc. eapply Hone. by left.
Qed.

(** X19.  With a policy that chooses among the entries it is offered, every note
    that [traverse] returns is a note that was ingested. *)
Theorem traverse_notes_are_ingested DisallowReuse ResetAfterExhaust {σ}
    name ss (p : TraverseGraphParam σ) fuel s notes s' n :
  from_offer (next p) →
  traverse DisallowReuse ResetAfterExhaust (ingest name ss) p fuel s =
    Some (notes, s') →
  n ∈ notes → n ∈ noteNumber <$> noteOnEvents ss.
Proof.
  intros Hoffer Hrun [i Hi]%list_elem_of_lookup.
  apply (proj1 (present_ingest name ss n)). unfold traverse in Hrun.
  destruct i as [|i].
  - unfold startElement in Hrun.
    destruct (_map (ingest name ss) !! startNote p) as [node|] eqn:Hnode.
    2:{ apply _push_nil in Hrun as ->; [done|by left]. }
    destruct (decide (0 = maxCount p)) as [Hmax|Hmax].
    { apply _push_nil in Hrun as ->; [done|by right]. }
    apply _push_head in Hrun; [|done].
    rewrite head_lookup, Hi in Hrun. simpl in Hrun. injection Hrun as ->.
    rewrite (notes_keyed_ingest name ss _ node Hnode). by eexists.
  - assert (is_Some (notes !! i)) as [a Ha].
    { apply lookup_lt_is_Some. apply lookup_lt_Some in Hi. lia. }
    destruct (_push_follows_edges _ _ _ _ _ _ _ _ _ _ _ Hoffer Hrun i a n Ha Hi)
      as (e & <- & [He|He]).
    + apply elem_of_paths_in in He as [_ He].
      eapply count_present. by right.
    + apply elem_of_paths_out in He as [_ He].
      eapply count_present. by left.
Qed.

Lemma traverse_notes_are_ingested_witness :
  from_offer topOut ∧
  traverse 1 2 (ingest "song" [phraseSequence])
    (mkTraverse 0 3 topOut 60%N) 3 () = Some ([60; 62; 60]%N, ()) ∧
  62%N ∈ [60; 62; 60]%N ∧
  62%N ∈ noteNumber <$> noteOnEvents [phraseSequence].
Proof.
  assert (traverse 1 2 (ingest "song" [phraseSequence])
            (mkTraverse 0 3 topOut 60%N) 3 () = Some ([60; 62; 60]%N, ()))
    as Hrun by (vm_compute; reflexivity).
  assert (62%N ∈ [60; 62; 60]%N) as Hin
    by (apply list_elem_of_In; simpl; tauto).
  split; [apply topOut_from_offer|]. split; [exact Hrun|].
  split; [exact Hin|].
  exact (traverse_notes_are_ingested 1 2 "song" [phraseSequence]
           (mkTraverse 0 3 topOut 60%N) 3 () _ _ 62%N
           topOut_from_offer Hrun Hin).
Defined.

Lemma _push_without_disallow DisallowReuse ResetAfterExhaust g
    (next : Policy unit) attributes attributes' maxCount startNote
    fuel noteElement index :
  has_attribute attributes DisallowReuse = false →
  has_attribute attributes' DisallowReuse = false →
  _push DisallowReuse ResetAfterExhaust g
    (mkTraverse attributes maxCount next startNote) fuel noteElement index
    [] () =
  _push DisallowReuse ResetAfterExhaust g
    (mkTraverse attributes' maxCount next startNote) fuel noteElement index
    [] ().
Proof.
  intros Ha Ha'. revert noteElement index.
  induction fuel as [|fuel IH]; intros noteElement index; [done|].
  simpl. destruct noteElement as [e|]; [|done].
  destruct (index =? maxCount); [done|].
  rewrite Ha, Ha'.
  destruct (next _ ()) as [[chosen|] []] eqn:Hask.
  - by rewrite IH.
  - destruct (has_attribute attributes ResetAfterExhaust),
      (has_attribute attributes' ResetAfterExhaust);
      rewrite ?Hask, ?IH; done.
Qed.

(** X20.  Without [DisallowReuse] nothing is ever excluded, so for a policy
    without state of its own the attributes make no difference:
    [ResetAfterExhaust] alone asks the same question again and gets the same
    answer. *)
Theorem traverse_reset_needs_disallow DisallowReuse ResetAfterExhaust g
    (next : Policy unit) attributes attributes' maxCount startNote fuel :
  has_attribute attributes DisallowReuse = false →
  has_attribute attributes' DisallowReuse = false →
  traverse DisallowReuse ResetAfterExhaust g
    (mkTraverse attributes maxCount next startNote) fuel () =
  traverse DisallowReuse ResetAfterExhaust g
    (mkTraverse attributes' maxCount next startNote) fuel ().
Proof. intros Ha Ha'. by apply _push_without_disallow. Qed.

Lemma traverse_reset_needs_disallow_witness :
  has_attribute 2 1 = false ∧ has_attribute 0 1 = false ∧
  traverse 1 2 (ingest "song" [phraseSequence])
    (mkTraverse 2 4 topOut 64%N) 4 () =
  traverse 1 2 (ingest "song" [phraseSequence])
    (mkTraverse 0 4 topOut 64%N) 4 ().
Proof.
  split; [reflexivity|]. split; [reflexivity|].
  exact (traverse_reset_needs_disallow 1 2 (ingest "song" [phraseSequence])
           topOut 2 0 4 64%N 4 eq_refl eq_refl).
Defined.
